(** * foonathan/memory: memory_arena.hpp

    A shallow embedding of [memory_block], of the intrusive block stack
    [detail::memory_block_stack] and of the class template [memory_arena],
    followed by the properties of the arena: the counter invariant, the order
    in which blocks go back to the block allocator, the reuse of cached
    blocks, and the behaviour of move and swap. *)

From Stdlib Require Import ZArith Lia.
From stdpp Require Import base option list.

Local Open Scope Z_scope.

(** ** Machine integers

    [std::size_t] is an unsigned 64-bit integer; addresses are numbers too. *)

Definition size_t_modulus : Z := 2 ^ 64.

Definition to_size_t (z : Z) : Z := z mod size_t_modulus.

Definition nullptr : Z := 0.

(** ** memory_block *)

Record memory_block : Type := Build_memory_block { memory : Z; size : Z }.

#[global] Instance memory_block_eq_dec : EqDecision memory_block.
Proof. solve_decision. Defined.

(** [memory_block(void *mem, std::size_t size)] *)
Definition memory_block_of (mem : Z) (sz : Z) : memory_block :=
  {| memory := mem; size := sz |}.

(** [memory_block(void *begin, void *end)]: the difference of the two
    [char*] is a [std::ptrdiff_t], converted to [std::size_t] by the
    delegation to the (address, size) constructor. *)
Definition memory_block_range (begin_ end_ : Z) : memory_block :=
  memory_block_of begin_ (to_size_t (end_ - begin_)).

(** [memory_block()] delegates to [memory_block(nullptr, size)], where
    [size] names the member of the object under construction, which nothing
    has initialised yet.  The value read there is whatever the storage holds;
    the embedding takes it as the argument [indeterminate]. *)
Definition memory_block_default (indeterminate : Z) : memory_block :=
  memory_block_of nullptr indeterminate.

(** ** detail::memory_block_stack *)

Module detail.

(** The header at the start of every pushed block links it to the block
    below; the stack is the chain of these headers, top first. *)
Definition memory_block_stack : Type := list memory_block.

(** [memory_block_stack()]: [head_(nullptr)] *)
Definition empty_stack : memory_block_stack := [].

Definition empty (s : memory_block_stack) : bool :=
  match s with
  | [] => true
  | _ :: _ => false
  end.

(** Modelled from the spec: [push] is declared in the header and defined
    elsewhere.  It writes the node header into the block and makes the
    block the new top; the node keeps what is needed to give the allocated
    block back. *)
Definition push (block : memory_block) (s : memory_block_stack)
  : memory_block_stack :=
  block :: s.

(** Modelled from the spec: [pop] is declared in the header and defined
    elsewhere.  It removes the top node and returns the block as it was
    allocated; the stack must not be empty. *)
Definition pop (s : memory_block_stack)
  : option (memory_block * memory_block_stack) :=
  match s with
  | [] => None
  | block :: s' => Some (block, s')
  end.

(** Modelled from the spec: [steal_top] is declared in the header and
    defined elsewhere.  [this->steal_top(other)] relinks the top node of
    [other] onto [this]; [other] must not be empty.  The result is the pair
    ([this], [other]) after the call. *)
Definition steal_top (this other : memory_block_stack)
  : option (memory_block_stack * memory_block_stack) :=
  match other with
  | [] => None
  | block :: other' => Some (block :: this, other')
  end.

(** The part of an allocated block left to the client once [offset] bytes
    at its start hold the node. *)
Definition usable (offset : Z) (block : memory_block) : memory_block :=
  {| memory := memory block + offset;
     size := to_size_t (size block - offset) |}.

(** Modelled from the spec: [top] is declared in the header and defined
    elsewhere.  It returns the usable region of the top block and leaves
    the stack alone; the stack must not be empty.  [offset] is the size of
    the node header. *)
Definition top (offset : Z) (s : memory_block_stack) : option memory_block :=
  match s with
  | [] => None
  | block :: _ => Some (usable offset block)
  end.

(** Move constructor: the head moves to the new stack, [other] is left
    empty.  The result is (new stack, [other] afterwards). *)
Definition move (other : memory_block_stack)
  : memory_block_stack * memory_block_stack :=
  (other, empty_stack).

(** [swap(a, b)]: [detail::adl_swap(a.head_, b.head_)] exchanges the heads.
    The result is ([a], [b]) afterwards. *)
Definition swap (a b : memory_block_stack)
  : memory_block_stack * memory_block_stack :=
  (b, a).

(** [operator=(memory_block_stack &&other)]: [tmp(move(other))], then
    [swap] of this stack with [tmp].  The result is (this stack, [other])
    afterwards; the old chain of this stack goes away with [tmp], whose
    destructor is empty. *)
Definition move_assign (this other : memory_block_stack)
  : memory_block_stack * memory_block_stack :=
  let '(tmp, other') := move other in
  let '(this', _) := swap this tmp in
  (this', other').

(** [operator=] with the stack itself as [other]: [tmp] takes the head and
    leaves the stack empty, and the swap with [tmp] gives the head back. *)
Definition move_assign_self (this : memory_block_stack) : memory_block_stack :=
  let '(tmp, this1) := move this in
  let '(this2, _) := swap this1 tmp in
  this2.

End detail.

(** ** The BlockAllocator concept

  [memory_arena] derives from its [BlockAllocator] and calls three of its
  members.  [allocate_block] may throw; [deallocate_block] is called from
  [noexcept] functions only and [next_block_size] is [const].  An allocator
  of type [A] throwing exceptions of type [E]: *)

Module allocator_type.

Class BlockAllocator (A E : Type) : Type := {
  allocate_block : A → (E + memory_block) * A;
  deallocate_block : memory_block → A → A;
  next_block_size : A → Z;
  (** what a move constructor leaves in the allocator it moved from; the
      newly constructed allocator has the value the source had *)
  moved_from : A → A
}.

End allocator_type.

(** A call the arena makes on its allocator, with what came back. *)
Inductive call (E : Type) : Type :=
| call_allocate_block (result : E + memory_block)
| call_deallocate_block (block : memory_block).

#[global] Arguments call_allocate_block {E} result.
#[global] Arguments call_deallocate_block {E} block.

(** ** memory_arena *)

Module memory_arena.

Section arena.

Context {A E : Type} `{!allocator_type.BlockAllocator A E}.

(** The size of the node header of the block stack ([node::offset]), fixed
    where the members of the stack are defined. *)
Variable node_offset : Z.

(** The object: the allocator base class and the four data members. *)
Record t : Type := Build {
  allocator : A;
  used_ : detail.memory_block_stack;
  cached_ : detail.memory_block_stack;
  no_used_ : Z;
  no_cached_ : Z
}.

Definition set_allocator (x : A) (a : t) : t :=
  Build x (used_ a) (cached_ a) (no_used_ a) (no_cached_ a).
Definition set_used (s : detail.memory_block_stack) (a : t) : t :=
  Build (allocator a) s (cached_ a) (no_used_ a) (no_cached_ a).
Definition set_cached (s : detail.memory_block_stack) (a : t) : t :=
  Build (allocator a) (used_ a) s (no_used_ a) (no_cached_ a).
Definition set_no_used (n : Z) (a : t) : t :=
  Build (allocator a) (used_ a) (cached_ a) n (no_cached_ a).
Definition set_no_cached (n : Z) (a : t) : t :=
  Build (allocator a) (used_ a) (cached_ a) (no_used_ a) n.

(** *** Member functions as computations on the object

    A member function either returns, or leaves through an exception of the
    allocator, or has no defined behaviour (a violated precondition of the
    block stack, a failed [FOONATHAN_MEMORY_ASSERT]).  In the first two cases
    it leaves the object in some state and has made some calls on the
    allocator, listed in the order they were made. *)

Inductive outcome (T : Type) : Type :=
| Normal (v : T) (a : t) (calls : list (call E))
| Raised (e : E) (a : t) (calls : list (call E))
| Undefined.

#[global] Arguments Normal {T} v a calls.
#[global] Arguments Raised {T} e a calls.
#[global] Arguments Undefined {T}.

Definition M (T : Type) : Type := t → outcome T.

Definition ret {T : Type} (v : T) : M T := λ a, Normal v a [].

Definition bind {T U : Type} (m : M T) (k : T → M U) : M U :=
  λ a,
    match m a with
    | Normal v a1 calls1 =>
        match k v a1 with
        | Normal w a2 calls2 => Normal w a2 (calls1 ++ calls2)
        | Raised e a2 calls2 => Raised e a2 (calls1 ++ calls2)
        | Undefined => Undefined
        end
    | Raised e a1 calls1 => Raised e a1 calls1
    | Undefined => Undefined
    end.

#[local] Instance M_ret : MRet M := @ret.
#[local] Instance M_bind : MBind M := λ T U k m, bind m k.

Definition get : M t := λ a, Normal a a [].

Definition modify (f : t → t) : M unit := λ a, Normal tt (f a) [].

(** Modelled from the spec: the macro [FOONATHAN_MEMORY_ASSERT] comes from
    a header that is not part of the sources at hand.  It is a debug-only
    check of a condition whose violation is a programming error: nothing is
    defined once [cond] is false. *)
Definition assert (cond : bool) : M unit :=
  λ a, if cond then Normal tt a [] else Undefined.

(** the result of a stack operation that has a precondition *)
Definition require {T : Type} (o : option T) : M T :=
  λ a, match o with
       | Some v => Normal v a []
       | None => Undefined
       end.

(** [allocator_type::allocate_block()] *)
Definition allocator_allocate_block : M memory_block :=
  λ a,
    match allocator_type.allocate_block (allocator a) with
    | (inr block, alloc) =>
        Normal block (set_allocator alloc a) [call_allocate_block (inr block)]
    | (inl e, alloc) =>
        Raised e (set_allocator alloc a) [call_allocate_block (inl e)]
    end.

(** [allocator_type::deallocate_block(block)] *)
Definition allocator_deallocate_block (block : memory_block) : M unit :=
  λ a,
    Normal tt
      (set_allocator (allocator_type.deallocate_block block (allocator a)) a)
      [call_deallocate_block block].

(** [explicit memory_arena(allocator_type allocator = allocator_type{})] *)
Definition construct (alloc : A) : t :=
  {| allocator := alloc;
     used_ := detail.empty_stack; cached_ := detail.empty_stack;
     no_used_ := 0; no_cached_ := 0 |}.

(** [std::size_t capacity() const] *)
Definition capacity : M Z :=
  a ← get;
  assert (xorb (negb (no_cached_ a =? 0)) (detail.empty (cached_ a))) ;;
  ret (to_size_t (no_cached_ a + no_used_ a)).

(** [std::size_t size() const] *)
Definition size : M Z :=
  a ← get;
  assert (xorb (negb (no_used_ a =? 0)) (detail.empty (used_ a))) ;;
  ret (no_used_ a).

(** [std::size_t next_block_size() const] *)
Definition next_block_size : M Z :=
  a ← get;
  ret (allocator_type.next_block_size (allocator a)).

(** [allocator_type& get_allocator()] *)
Definition get_allocator : M A :=
  a ← get;
  ret (allocator a).

(** [used_.steal_top(cached_)] *)
Definition used_steal_top_cached : M unit :=
  a ← get;
  '(used, cached) ← require (detail.steal_top (used_ a) (cached_ a));
  modify (λ a, set_cached cached (set_used used a)).

(** [cached_.steal_top(used_)] *)
Definition cached_steal_top_used : M unit :=
  a ← get;
  '(cached, used) ← require (detail.steal_top (cached_ a) (used_ a));
  modify (λ a, set_cached cached (set_used used a)).

(** [used_.pop()] *)
Definition used_pop : M memory_block :=
  a ← get;
  '(block, used) ← require (detail.pop (used_ a));
  modify (set_used used) ;;
  ret block.

(** [memory_block allocate_block()] *)
Definition allocate_block : M memory_block :=
  c ← capacity;
  s ← size;
  (if c =? s then
     block ← allocator_allocate_block;
     modify (λ a, set_used (detail.push block (used_ a)) a)
   else
     used_steal_top_cached ;;
     modify (λ a, set_no_cached (to_size_t (no_cached_ a - 1)) a)) ;;
  modify (λ a, set_no_used (to_size_t (no_used_ a + 1)) a) ;;
  a ← get;
  require (detail.top node_offset (used_ a)).

(** [void deallocate_block()] *)
Definition deallocate_block : M unit :=
  modify (λ a, set_no_used (to_size_t (no_used_ a - 1)) a) ;;
  modify (λ a, set_no_cached (to_size_t (no_cached_ a + 1)) a) ;;
  cached_steal_top_used.

(** The loop [while (!other.empty()) this.steal_top(other);], by recursion
    on the stack it empties.  The result is ([this], [other]) at the exit. *)
Fixpoint steal_all (this other : detail.memory_block_stack)
  : detail.memory_block_stack * detail.memory_block_stack :=
  match other with
  | [] => (this, other)
  | block :: other' => steal_all (block :: this) other'
  end.

(** The loop
    [while (!to_dealloc.empty()) allocator_type::deallocate_block(to_dealloc.pop());]
    on a local stack. *)
Fixpoint deallocate_all (to_dealloc : detail.memory_block_stack) : M unit :=
  match to_dealloc with
  | [] => ret tt
  | block :: to_dealloc' =>
      allocator_deallocate_block block ;; deallocate_all to_dealloc'
  end.

(** The loop
    [while (!used_.empty()) allocator_type::deallocate_block(used_.pop());]
    entered with [used_ = s]: one iteration for each node of [s]. *)
Fixpoint pop_used_while_not_empty (s : detail.memory_block_stack) : M unit :=
  match s with
  | [] => ret tt
  | _ :: s' =>
      block ← used_pop;
      allocator_deallocate_block block ;;
      pop_used_while_not_empty s'
  end.

(** [void shrink_to_fit()] *)
Definition shrink_to_fit : M unit :=
  a ← get;
  let '(to_dealloc, cached) := steal_all detail.empty_stack (cached_ a) in
  modify (set_cached cached) ;;
  deallocate_all to_dealloc ;;
  modify (set_no_cached 0).

(** [~memory_arena()] *)
Definition destroy : M unit :=
  a ← get;
  let '(used, cached) := steal_all (used_ a) (cached_ a) in
  modify (λ a, set_cached cached (set_used used a)) ;;
  pop_used_while_not_empty used.

(** Modelled from the spec: move construction of an arena.  The constructor
    [memory_arena(memory_arena &&other)] of the header initialises [used_]
    and [cached_] from [detail::move(other)], the whole arena, and a block
    stack can be constructed from a block stack only: the constructor is
    ill-formed once it is instantiated and has no behaviour of its own.
    What stands here is the move construction the specification describes:
    both stacks, both counters and the allocator go to the new arena, and
    [other] is left a valid empty arena with [capacity() == 0].  It is not
    a translation of the header.  The result is (new arena, [other]
    afterwards). *)
Definition move_construct (other : t) : t * t :=
  let alloc := allocator other in
  let '(used, other_used) := detail.move (used_ other) in
  let '(cached, other_cached) := detail.move (cached_ other) in
  ({| allocator := alloc; used_ := used; cached_ := cached;
      no_used_ := no_used_ other; no_cached_ := no_cached_ other |},
   {| allocator := allocator_type.moved_from alloc;
      used_ := other_used; cached_ := other_cached;
      no_used_ := 0; no_cached_ := 0 |}).

(** [friend void swap(memory_arena &a, memory_arena &b)]: four calls of
    [detail::adl_swap], on the two stacks and on the two counters.  The
    allocator base classes are not mentioned.  The result is ([a], [b])
    afterwards. *)
Definition swap (a b : t) : t * t :=
  let '(a_used, b_used) := detail.swap (used_ a) (used_ b) in
  let '(a_cached, b_cached) := detail.swap (cached_ a) (cached_ b) in
  ({| allocator := allocator a; used_ := a_used; cached_ := a_cached;
      no_used_ := no_used_ b; no_cached_ := no_cached_ b |},
   {| allocator := allocator b; used_ := b_used; cached_ := b_cached;
      no_used_ := no_used_ a; no_cached_ := no_cached_ a |}).

(** a member function run on another object, here the local [tmp] *)
Definition on_local {T : Type} (tmp : t) (m : M T) : M (T * t) :=
  λ a,
    match m tmp with
    | Normal v tmp' calls => Normal (v, tmp') a calls
    | Raised e _ calls => Raised e a calls
    | Undefined => Undefined
    end.

(** Modelled from the spec: the move construction inside
    [memory_arena& operator=(memory_arena &&other)].  The body of the
    operator is the one of the header: [tmp] is move-constructed from
    [other], swapped with the object by [swap] and destroyed at the end of
    the body.  The move construction of [tmp] is [move_construct], the one
    the specification describes, since the constructor of the header is
    ill-formed (and the operator with it).  The value returned here is
    [other] afterwards. *)
Definition move_assign (other : t) : M t :=
  let '(tmp, other') := move_construct other in
  this ← get;
  let '(this', tmp') := swap this tmp in
  modify (λ _, this') ;;
  on_local tmp' destroy ;;
  ret other'.

End arena.

#[global] Arguments t A : clear implicits.
#[global] Arguments outcome A E T : clear implicits.
#[global] Arguments M A E T : clear implicits.

End memory_arena.

(** ** What the allocator sees

    [outstanding calls] replays the calls made on an allocator and gives the
    blocks it has handed out and not got back, the latest first.  It is
    [None] as soon as a block comes back that is not the latest one still
    out: a block given back out of order, given back twice, or never handed
    out. *)

Definition outstanding_step {E : Type} (live : list memory_block) (c : call E)
  : option (list memory_block) :=
  match c with
  | call_allocate_block (inr block) => Some (block :: live)
  | call_allocate_block (inl _) => Some live
  | call_deallocate_block block =>
      match live with
      | latest :: live' =>
          if decide (latest = block) then Some live' else None
      | [] => None
      end
  end.

Fixpoint outstanding_from {E : Type} (live : list memory_block)
  (calls : list (call E)) : option (list memory_block) :=
  match calls with
  | [] => Some live
  | c :: calls' =>
      match outstanding_step live c with
      | Some live' => outstanding_from live' calls'
      | None => None
      end
  end.

Definition outstanding {E : Type} (calls : list (call E))
  : option (list memory_block) :=
  outstanding_from [] calls.

(** The number of blocks obtained from allocators, and the number given
    back, in a list of calls. *)
Fixpoint obtained {E : Type} (calls : list (call E)) : nat :=
  match calls with
  | [] => 0%nat
  | call_allocate_block (inr _) :: calls' => S (obtained calls')
  | _ :: calls' => obtained calls'
  end.

(** The blocks obtained, in the order they were obtained. *)
Fixpoint acquired {E : Type} (calls : list (call E)) : list memory_block :=
  match calls with
  | [] => []
  | call_allocate_block (inr block) :: calls' => block :: acquired calls'
  | _ :: calls' => acquired calls'
  end.

Fixpoint returned {E : Type} (calls : list (call E)) : nat :=
  match calls with
  | [] => 0%nat
  | call_deallocate_block _ :: calls' => S (returned calls')
  | _ :: calls' => returned calls'
  end.

(** ** Arena states and runs *)

Section runs.

Context {A E : Type} `{!allocator_type.BlockAllocator A E}.
Variable node_offset : Z.

(** The blocks an arena owns. *)
Definition owned (a : memory_arena.t A) : nat :=
  (length (memory_arena.used_ a) + length (memory_arena.cached_ a))%nat.

(** Each counter is the length of its stack, and the two lengths together
    fit a [std::size_t]. *)
Definition consistent (a : memory_arena.t A) : Prop :=
  memory_arena.no_used_ a = Z.of_nat (length (memory_arena.used_ a))
  ∧ memory_arena.no_cached_ a = Z.of_nat (length (memory_arena.cached_ a))
  ∧ Z.of_nat (owned a) < size_t_modulus.

(** The two counters hold values of their type, [std::size_t]. *)
Definition size_t_fields (a : memory_arena.t A) : Prop :=
  (0 ≤ memory_arena.no_used_ a < size_t_modulus)
  ∧ (0 ≤ memory_arena.no_cached_ a < size_t_modulus).

(** Each counter is the length of its stack as [std::size_t] arithmetic
    computes it. *)
Definition counted (a : memory_arena.t A) : Prop :=
  memory_arena.no_used_ a = to_size_t (Z.of_nat (length (memory_arena.used_ a)))
  ∧ memory_arena.no_cached_ a
    = to_size_t (Z.of_nat (length (memory_arena.cached_ a))).

(** The two assertions [allocate_block] goes through, in [capacity] and in
    [size]. *)
Definition asserts_hold (a : memory_arena.t A) : bool :=
  xorb (negb (memory_arena.no_cached_ a =? 0))
       (detail.empty (memory_arena.cached_ a))
  && xorb (negb (memory_arena.no_used_ a =? 0))
          (detail.empty (memory_arena.used_ a)).

(** The allocator after it got back the blocks of [s], top first. *)
Definition release_all (s : detail.memory_block_stack) (alloc : A) : A :=
  foldl (λ alloc block, allocator_type.deallocate_block block alloc) alloc s.

(** The member functions a client of one arena calls. *)
Inductive operation : Type :=
| op_allocate_block
| op_deallocate_block
| op_shrink_to_fit.

Definition perform (op : operation) : memory_arena.M A E unit :=
  match op with
  | op_allocate_block =>
      memory_arena.bind (memory_arena.allocate_block node_offset)
        (λ _, memory_arena.ret tt)
  | op_deallocate_block => memory_arena.deallocate_block
  | op_shrink_to_fit => memory_arena.shrink_to_fit
  end.

(** The arena and the calls made once control is back with the caller, by
    a return or by an exception the caller catches; nothing when the
    behaviour is undefined. *)
Definition after {T : Type} (r : memory_arena.outcome A E T)
  : option (memory_arena.t A * list (call E)) :=
  match r with
  | memory_arena.Normal _ a calls => Some (a, calls)
  | memory_arena.Raised _ a calls => Some (a, calls)
  | memory_arena.Undefined => None
  end.

(** A sequence of member calls on one arena. *)
Fixpoint run (ops : list operation) (a : memory_arena.t A)
  : option (memory_arena.t A * list (call E)) :=
  match ops with
  | [] => Some (a, [])
  | op :: ops' =>
      match after (perform op a) with
      | Some (a1, calls1) =>
          match run ops' a1 with
          | Some (a2, calls2) => Some (a2, calls1 ++ calls2)
          | None => None
          end
      | None => None
      end
  end.

(** *** Several arenas

    A program holds arenas [arenas !! 0], [arenas !! 1], ..., each one with
    the calls made so far on its own allocator, the one in its base class;
    [history] lists the calls made on all the allocators, in the order they
    were made. *)

Record world : Type := {
  arenas : list (memory_arena.t A * list (call E));
  history : list (call E)
}.

Definition initial_world : world := {| arenas := []; history := [] |}.

(** The blocks owned by all the arenas together. *)
Definition blocks_owned (l : list (memory_arena.t A * list (call E))) : nat :=
  foldr (λ s n, (owned s.1 + n)%nat) 0%nat l.

(** The blocks obtained and not given back, in a list of calls. *)
Definition blocks_out (calls : list (call E)) : Z :=
  Z.of_nat (obtained calls) - Z.of_nat (returned calls).

(** The blocks of an arena from the oldest in [used_] to the top of
    [used_] and on through [cached_] from its top. *)
Definition in_order (a : memory_arena.t A) : list memory_block :=
  rev (memory_arena.used_ a) ++ memory_arena.cached_ a.

(** What every step of a program keeps true of an arena: its counters
    count its stacks, and its blocks, in the order above, were obtained in
    that order. *)
Definition slot_ok (calls : list (call E))
  (s : memory_arena.t A * list (call E)) : Prop :=
  counted s.1 ∧ in_order s.1 `sublist_of` acquired calls.

(** What every step keeps true of the program: the above for every arena,
    and the arenas own as many blocks as are out. *)
Definition world_ok (w : world) : Prop :=
  Forall (slot_ok (history w)) (arenas w)
  ∧ Z.of_nat (blocks_owned (arenas w)) = blocks_out (history w).

(** What holds of an arena that has taken part in no swap: the blocks its
    own allocator has handed out and not got back are the blocks in its
    stacks, and every block came back latest first. *)
Definition own_ok (s : memory_arena.t A * list (call E)) : Prop :=
  outstanding s.2
  = Some (rev (memory_arena.cached_ s.1) ++ memory_arena.used_ s.1).

(** The steps of a program: the construction of one more arena, a member
    call on an arena, the swap of two arenas.  Move construction and move
    assignment are no steps: as the header has them they do not compile. *)
Inductive action : Type :=
| act_construct (alloc : A)
| act_member (i : nat) (op : operation)
| act_swap (i j : nat).

Definition exec (act : action) (w : world) : option world :=
  match act with
  | act_construct alloc =>
      Some {| arenas := arenas w ++ [(memory_arena.construct alloc, [])];
              history := history w |}
  | act_member i op =>
      '(a, own) ← arenas w !! i;
      '(a', calls) ← after (perform op a);
      Some {| arenas := <[i:=(a', own ++ calls)]> (arenas w);
              history := history w ++ calls |}
  | act_swap i j =>
      '(a, own_a) ← arenas w !! i;
      '(b, own_b) ← arenas w !! j;
      let '(a', b') := memory_arena.swap a b in
      Some {| arenas := <[j:=(b', own_b)]> (<[i:=(a', own_a)]> (arenas w));
              history := history w |}
  end.

Fixpoint exec_all (acts : list action) (w : world) : option world :=
  match acts with
  | [] => Some w
  | act :: acts' =>
      match exec act w with
      | Some w' => exec_all acts' w'
      | None => None
      end
  end.

(** Whether a step swaps the arena [i]. *)
Definition swaps (i : nat) (act : action) : bool :=
  match act with
  | act_swap j k => bool_decide (j = i) || bool_decide (k = i)
  | _ => false
  end.

Definition never_swapped (i : nat) (acts : list action) : bool :=
  forallb (λ act, negb (swaps i act)) acts.

End runs.

(** ** A block allocator for the examples

    Blocks of [block_size] bytes handed out at increasing addresses from
    [next_address], as long as [blocks_left] is not zero; a block given back
    lowers [next_address] again. *)

Record fixed_block_allocator : Type := {
  next_address : Z;
  block_size : Z;
  blocks_left : nat
}.

Inductive out_of_memory : Type := OutOfMemory.

#[global] Instance fixed_block_allocator_ops
  : allocator_type.BlockAllocator fixed_block_allocator out_of_memory := {|
  allocator_type.allocate_block s :=
    match blocks_left s with
    | O => (inl OutOfMemory, s)
    | S n =>
        (inr {| memory := next_address s; size := block_size s |},
         {| next_address := next_address s + block_size s;
            block_size := block_size s;
            blocks_left := n |})
    end;
  allocator_type.deallocate_block block s :=
    {| next_address := next_address s - size block;
       block_size := block_size s;
       blocks_left := S (blocks_left s) |};
  allocator_type.next_block_size s := block_size s;
  allocator_type.moved_from s := s
|}.

Definition fixed_4096 (address : Z) (n : nat) : fixed_block_allocator :=
  {| next_address := address; block_size := 4096; blocks_left := n |}.

(** The node header of the examples takes 16 bytes. *)
Definition example_offset : Z := 16.

(** An arena that got three blocks, gave two back, took one again and gave
    it back: [example_ops] run on a new arena gives [example_arena], with the
    calls [example_calls] made on the allocator. *)
Definition example_ops : list operation :=
  [op_allocate_block; op_allocate_block; op_allocate_block;
   op_deallocate_block; op_deallocate_block; op_allocate_block;
   op_deallocate_block].

Definition example_arena : memory_arena.t fixed_block_allocator :=
  {| memory_arena.allocator := fixed_4096 77824 1;
     memory_arena.used_ := [{| memory := 65536; size := 4096 |}];
     memory_arena.cached_ :=
       [{| memory := 69632; size := 4096 |};
        {| memory := 73728; size := 4096 |}];
     memory_arena.no_used_ := 1;
     memory_arena.no_cached_ := 2 |}.

Definition example_calls : list (call out_of_memory) :=
  [call_allocate_block (inr {| memory := 65536; size := 4096 |});
   call_allocate_block (inr {| memory := 69632; size := 4096 |});
   call_allocate_block (inr {| memory := 73728; size := 4096 |})].

(** An arena whose allocator has nothing left. *)
Definition example_exhausted : memory_arena.t fixed_block_allocator :=
  memory_arena.construct (fixed_4096 65536 0).

(** Two arenas on allocators of their own: [example_source] holds one block
    of its allocator, [example_target] is new. *)
Definition example_source : memory_arena.t fixed_block_allocator :=
  {| memory_arena.allocator := fixed_4096 69632 3;
     memory_arena.used_ := [{| memory := 65536; size := 4096 |}];
     memory_arena.cached_ := [];
     memory_arena.no_used_ := 1;
     memory_arena.no_cached_ := 0 |}.


(** A program with three arenas: the first two are swapped, the third is
    not. *)
Definition example_actions : list (action (A := fixed_block_allocator)) :=
  [act_construct (fixed_4096 65536 4);
   act_construct (fixed_4096 1048576 4);
   act_construct (fixed_4096 2097152 4);
   act_member 0 op_allocate_block;
   act_member 0 op_allocate_block;
   act_member 1 op_allocate_block;
   act_member 2 op_allocate_block;
   act_member 2 op_allocate_block;
   act_member 0 op_deallocate_block;
   act_swap 0 1;
   act_member 2 op_deallocate_block;
   act_member 0 op_shrink_to_fit].

Definition example_world
  : world (A := fixed_block_allocator) (E := out_of_memory) :=
  Eval vm_compute in
    default initial_world
      (exec_all example_offset example_actions initial_world).

Definition example_unswapped : memory_arena.t fixed_block_allocator :=
  {| memory_arena.allocator := fixed_4096 2105344 2;
     memory_arena.used_ := [{| memory := 2097152; size := 4096 |}];
     memory_arena.cached_ := [{| memory := 2101248; size := 4096 |}];
     memory_arena.no_used_ := 1;
     memory_arena.no_cached_ := 1 |}.

Definition example_unswapped_calls : list (call out_of_memory) :=
  [call_allocate_block (inr {| memory := 2097152; size := 4096 |});
   call_allocate_block (inr {| memory := 2101248; size := 4096 |})].

(** Two arenas, two blocks taken by the second, and a swap: the first arena
    then holds the two blocks, and its own allocator has handed out none. *)
Definition swap_actions : list (action (A := fixed_block_allocator)) :=
  [act_construct (fixed_4096 65536 4);
   act_construct (fixed_4096 1048576 4);
   act_member 1 op_allocate_block;
   act_member 1 op_allocate_block;
   act_swap 0 1].

Definition swap_world
  : world (A := fixed_block_allocator) (E := out_of_memory) :=
  Eval vm_compute in
    default initial_world
      (exec_all example_offset swap_actions initial_world).

Definition swap_arena : memory_arena.t fixed_block_allocator :=
  {| memory_arena.allocator := fixed_4096 65536 4;
     memory_arena.used_ :=
       [{| memory := 1052672; size := 4096 |};
        {| memory := 1048576; size := 4096 |}];
     memory_arena.cached_ := [];
     memory_arena.no_used_ := 2;
     memory_arena.no_cached_ := 0 |}.

(** * Properties *)

(** ** memory_block *)

Lemma to_size_t_small (z : Z) : 0 ≤ z < size_t_modulus → to_size_t z = z.
Proof. intros Hz. unfold to_size_t. by apply Z.mod_small. Qed.

Lemma to_size_t_range (z : Z) : 0 ≤ to_size_t z < size_t_modulus.
Proof. unfold to_size_t. by apply Z.mod_pos_bound. Qed.

Lemma memory_block_of_fields (mem sz : Z) :
  memory (memory_block_of mem sz) = mem ∧ size (memory_block_of mem sz) = sz.
Proof. done. Qed.

Lemma memory_block_range_fields (begin_ end_ : Z) :
  0 ≤ begin_ → begin_ ≤ end_ → end_ < size_t_modulus →
  memory (memory_block_range begin_ end_) = begin_
  ∧ size (memory_block_range begin_ end_) = end_ - begin_.
Proof.
  intros Hb Hle He. split; [done|].
  simpl. apply to_size_t_small. lia.
Qed.

Lemma memory_block_default_fields (indeterminate : Z) :
  memory (memory_block_default indeterminate) = nullptr
  ∧ size (memory_block_default indeterminate) = indeterminate.
Proof. done. Qed.

(** C9: a default-constructed [memory_block] has a null address, but its
    size is the value found in the uninitialised member, not zero: built in
    storage that holds 1 there, the block has size 1 and is not the empty
    block. *)
Theorem memory_block_default_not_empty :
  memory (memory_block_default 1) = nullptr
  ∧ size (memory_block_default 1) = 1
  ∧ memory_block_default 1 ≠ memory_block_of nullptr 0.
Proof. repeat split. discriminate. Qed.

(** ** memory_arena: the member functions one by one *)

Ltac unfold_members :=
  unfold memory_arena.allocate_block, memory_arena.deallocate_block,
    memory_arena.shrink_to_fit, memory_arena.destroy,
    memory_arena.capacity, memory_arena.size,
    memory_arena.used_steal_top_cached, memory_arena.cached_steal_top_used,
    memory_arena.used_pop, memory_arena.allocator_allocate_block,
    memory_arena.allocator_deallocate_block.

Ltac unfold_monad :=
  unfold mbind, mret, memory_arena.M_bind, memory_arena.M_ret,
    memory_arena.bind, memory_arena.ret, memory_arena.get,
    memory_arena.modify, memory_arena.assert, memory_arena.require.

Section members.

Context {A E : Type} `{!allocator_type.BlockAllocator A E}.
Variable node_offset : Z.

Implicit Types (a b : memory_arena.t A) (block : memory_block).
Implicit Types (s used cached : detail.memory_block_stack).

Lemma capacity_Normal a c a' (calls : list (call E)) :
  memory_arena.capacity a = memory_arena.Normal c a' calls ↔
  xorb (negb (memory_arena.no_cached_ a =? 0))
       (detail.empty (memory_arena.cached_ a)) = true
  ∧ c = to_size_t (memory_arena.no_cached_ a + memory_arena.no_used_ a)
  ∧ a' = a ∧ calls = [].
Proof.
  unfold_members; unfold_monad; simpl.
  destruct (xorb _ _); simpl; split.
  - by intros [= <- <- <-].
  - by intros (_ & -> & -> & ->).
  - done.
  - by intros [? _].
Qed.

Lemma size_Normal a n a' (calls : list (call E)) :
  memory_arena.size a = memory_arena.Normal n a' calls ↔
  xorb (negb (memory_arena.no_used_ a =? 0))
       (detail.empty (memory_arena.used_ a)) = true
  ∧ n = memory_arena.no_used_ a ∧ a' = a ∧ calls = [].
Proof.
  unfold_members; unfold_monad; simpl.
  destruct (xorb _ _); simpl; split.
  - by intros [= <- <- <-].
  - by intros (_ & -> & -> & ->).
  - done.
  - by intros [? _].
Qed.

Lemma allocate_block_unfold a :
  memory_arena.allocate_block node_offset a =
  if asserts_hold a then
    if to_size_t (memory_arena.no_cached_ a + memory_arena.no_used_ a)
       =? memory_arena.no_used_ a
    then
      match allocator_type.allocate_block (memory_arena.allocator a) with
      | (inr block, alloc) =>
          memory_arena.Normal (detail.usable node_offset block)
            (memory_arena.Build alloc
               (block :: memory_arena.used_ a) (memory_arena.cached_ a)
               (to_size_t (memory_arena.no_used_ a + 1))
               (memory_arena.no_cached_ a))
            [call_allocate_block (inr block)]
      | (inl e, alloc) =>
          memory_arena.Raised e (memory_arena.set_allocator alloc a)
            [call_allocate_block (inl e)]
      end
    else
      match memory_arena.cached_ a with
      | [] => memory_arena.Undefined
      | block :: rest =>
          memory_arena.Normal (detail.usable node_offset block)
            (memory_arena.Build (memory_arena.allocator a)
               (block :: memory_arena.used_ a) rest
               (to_size_t (memory_arena.no_used_ a + 1))
               (to_size_t (memory_arena.no_cached_ a - 1)))
            []
      end
  else memory_arena.Undefined.
Proof.
  destruct a as [alloc used cached nu nc].
  unfold asserts_hold. unfold_members; unfold_monad; simpl.
  destruct (xorb (negb (nc =? 0)) (detail.empty cached)); simpl; [|done].
  destruct (xorb (negb (nu =? 0)) (detail.empty used)); simpl; [|done].
  destruct (to_size_t (nc + nu) =? nu); simpl.
  - destruct (allocator_type.allocate_block alloc) as [[e|block] alloc'];
      simpl; done.
  - destruct cached; simpl; done.
Qed.

Lemma deallocate_block_unfold a :
  memory_arena.deallocate_block a =
  match memory_arena.used_ a with
  | [] => memory_arena.Undefined
  | block :: rest =>
      memory_arena.Normal tt
        (memory_arena.Build (memory_arena.allocator a)
           rest (block :: memory_arena.cached_ a)
           (to_size_t (memory_arena.no_used_ a - 1))
           (to_size_t (memory_arena.no_cached_ a + 1)))
        ([] : list (call E))
  end.
Proof.
  destruct a as [alloc used cached nu nc].
  unfold_members; unfold_monad; simpl.
  destruct used; simpl; done.
Qed.

(** C5: [allocate_block] with [capacity() == size()] calls the allocator's
    [allocate_block] once and, when that returns a block, pushes it on
    [used_]; with [capacity() != size()] there is a cached block, which is
    moved from [cached_] to [used_] by [steal_top] while [no_cached_] is
    decremented, and the allocator is not called.  Either way [no_used_] is
    incremented and the value returned is [used_.top()]. *)
Theorem allocate_block_branches a c n :
  size_t_fields a →
  memory_arena.capacity a = memory_arena.Normal c a ([] : list (call E)) →
  memory_arena.size a = memory_arena.Normal n a ([] : list (call E)) →
  (c = n →
   match allocator_type.allocate_block (memory_arena.allocator a) with
   | (inr block, alloc) =>
       ∃ a',
         memory_arena.allocate_block node_offset a
         = memory_arena.Normal (detail.usable node_offset block) a'
             [call_allocate_block (inr block)]
         ∧ a' = memory_arena.Build alloc
                  (detail.push block (memory_arena.used_ a))
                  (memory_arena.cached_ a)
                  (to_size_t (memory_arena.no_used_ a + 1))
                  (memory_arena.no_cached_ a)
         ∧ detail.top node_offset (memory_arena.used_ a')
           = Some (detail.usable node_offset block)
   | (inl e, alloc) =>
       memory_arena.allocate_block node_offset a
       = memory_arena.Raised e (memory_arena.set_allocator alloc a)
           [call_allocate_block (inl e)]
   end)
  ∧ (c ≠ n →
     ∃ block rest a',
       memory_arena.cached_ a = block :: rest
       ∧ detail.steal_top (memory_arena.used_ a) (memory_arena.cached_ a)
         = Some (memory_arena.used_ a', memory_arena.cached_ a')
       ∧ memory_arena.allocate_block node_offset a
         = memory_arena.Normal (detail.usable node_offset block) a'
             ([] : list (call E))
       ∧ a' = memory_arena.Build (memory_arena.allocator a)
                (block :: memory_arena.used_ a) rest
                (to_size_t (memory_arena.no_used_ a + 1))
                (to_size_t (memory_arena.no_cached_ a - 1))
       ∧ detail.top node_offset (memory_arena.used_ a')
         = Some (detail.usable node_offset block)).
Proof.
  intros [Hnu Hnc] (Hac & -> & _)%capacity_Normal (Hau & -> & _)%size_Normal.
  rewrite allocate_block_unfold. unfold asserts_hold. rewrite Hac, Hau; simpl.
  split.
  - intros Heq. rewrite Heq, Z.eqb_refl.
    destruct (allocator_type.allocate_block _) as [[e|block] alloc]; [done|].
    eexists; split_and!; done.
  - intros Hne. apply Z.eqb_neq in Hne as Hneb. rewrite Hneb.
    destruct (memory_arena.cached_ a) as [|block rest] eqn:Hcached.
    + exfalso. simpl in Hac.
      destruct (memory_arena.no_cached_ a =? 0) eqn:Hz; [|done].
      apply Z.eqb_eq in Hz. apply Hne. rewrite Hz, Z.add_0_l.
      by apply to_size_t_small.
    + eexists block, rest, _; split_and!; try done.
      reflexivity.
Qed.

(** C6: when [allocate_block] has to grow ([capacity() == size()]) and the
    allocator's [allocate_block] throws [e], the arena's [allocate_block]
    leaves with the same [e], and the two stacks and the two counters are
    what they were before the call. *)
Theorem allocate_block_failure_atomic a c e alloc :
  memory_arena.capacity a = memory_arena.Normal c a ([] : list (call E)) →
  memory_arena.size a = memory_arena.Normal c a ([] : list (call E)) →
  allocator_type.allocate_block (memory_arena.allocator a) = (inl e, alloc) →
  ∃ a',
    memory_arena.allocate_block node_offset a
    = memory_arena.Raised e a' [call_allocate_block (inl e)]
    ∧ memory_arena.used_ a' = memory_arena.used_ a
    ∧ memory_arena.cached_ a' = memory_arena.cached_ a
    ∧ memory_arena.no_used_ a' = memory_arena.no_used_ a
    ∧ memory_arena.no_cached_ a' = memory_arena.no_cached_ a.
Proof.
  intros (Hac & Hc & _)%capacity_Normal (Hau & Hn & _)%size_Normal Hfail.
  rewrite allocate_block_unfold. unfold asserts_hold. rewrite Hac, Hau; simpl.
  rewrite <- Hc, Hn, Z.eqb_refl, Hfail.
  eexists; split_and!; done.
Qed.

(** [deallocate_block] on any object whose [used_] is not empty: the top of
    [used_] goes on top of [cached_], the counters move by one in
    [std::size_t] arithmetic, the allocator is left alone. *)
Lemma deallocate_block_nonempty a block rest :
  memory_arena.used_ a = block :: rest →
  memory_arena.deallocate_block a
  = memory_arena.Normal tt
      (memory_arena.Build (memory_arena.allocator a)
         rest (block :: memory_arena.cached_ a)
         (to_size_t (memory_arena.no_used_ a - 1))
         (to_size_t (memory_arena.no_cached_ a + 1)))
      ([] : list (call E)).
Proof. intros Hused. by rewrite deallocate_block_unfold, Hused. Qed.

(** The same in an arena whose counters count: no wrap-around. *)
Lemma deallocate_block_consistent a block rest :
  consistent a →
  memory_arena.used_ a = block :: rest →
  memory_arena.deallocate_block a
  = memory_arena.Normal tt
      (memory_arena.Build (memory_arena.allocator a)
         rest (block :: memory_arena.cached_ a)
         (memory_arena.no_used_ a - 1)
         (memory_arena.no_cached_ a + 1))
      ([] : list (call E)).
Proof.
  intros (Hnu & Hnc & Hlt) Hused. unfold owned in Hlt.
  rewrite (deallocate_block_nonempty _ _ _ Hused).
  rewrite Hused in Hnu, Hlt. simpl in Hnu, Hlt.
  rewrite !to_size_t_small by lia. done.
Qed.

(** C8: in an arena whose [used_] is not empty, [deallocate_block] returns
    normally, having moved the top block of [used_] onto [cached_] (what
    [steal_top] does), taken one off [no_used_] and added one to
    [no_cached_]; the blocks below the top of [used_] and the blocks already
    in [cached_] stay as they are, and no call is made on the allocator. *)
Theorem deallocate_block_moves_top a block rest :
  consistent a →
  memory_arena.used_ a = block :: rest →
  memory_arena.deallocate_block a
  = memory_arena.Normal tt
      (memory_arena.Build (memory_arena.allocator a)
         rest (block :: memory_arena.cached_ a)
         (memory_arena.no_used_ a - 1)
         (memory_arena.no_cached_ a + 1))
      ([] : list (call E))
  ∧ detail.steal_top (memory_arena.cached_ a) (memory_arena.used_ a)
    = Some (block :: memory_arena.cached_ a, rest).
Proof.
  intros Hcons Hused. split.
  - by apply deallocate_block_consistent.
  - by rewrite Hused.
Qed.

(** C4: in an arena whose [used_] is not empty, [deallocate_block] followed
    at once by [allocate_block] hands out the usable region of the block
    that was on top of [used_], the one just deallocated, with the same
    address and size; the second call makes no call on the allocator, and
    the arena is back in the state it had before the two calls. *)
Theorem deallocate_then_allocate_reuses a block rest :
  consistent a →
  memory_arena.used_ a = block :: rest →
  ∃ a1,
    memory_arena.deallocate_block a
    = memory_arena.Normal tt a1 ([] : list (call E))
    ∧ memory_arena.allocate_block node_offset a1
      = memory_arena.Normal (detail.usable node_offset block) a
          ([] : list (call E))
    ∧ detail.top node_offset (memory_arena.used_ a)
      = Some (detail.usable node_offset block).
Proof.
  intros Hcons Hused.
  rewrite (deallocate_block_consistent a block rest Hcons Hused).
  destruct Hcons as (Hnu & Hnc & Hlt). unfold owned in Hlt.
  eexists; split; [done|]. split; [|by rewrite Hused].
  rewrite allocate_block_unfold. unfold asserts_hold; simpl.
  destruct a as [alloc used cached nu nc]; simpl in *. subst used nu nc.
  simpl in Hlt.
  set (m := Z.of_nat (length cached)) in *.
  assert (Hn : Z.of_nat (length (block :: rest)) - 1 = Z.of_nat (length rest))
    by (simpl; lia).
  rewrite Hn. set (n := Z.of_nat (length rest)) in *.
  assert (0 ≤ m ∧ 0 ≤ n ∧ n + 1 + m < size_t_modulus) as (Hm & Hn0 & Hb)
    by (subst m n; simpl in Hlt; lia).
  replace (negb (m + 1 =? 0)) with true by (symmetry; apply negb_true_iff; lia).
  replace (xorb (negb (n =? 0)) (detail.empty rest)) with true.
  2:{ subst n. by destruct rest. }
  simpl. rewrite (to_size_t_small (m + 1 + n)) by lia.
  replace (m + 1 + n =? n) with false by (symmetry; lia).
  rewrite !to_size_t_small by lia.
  do 2 f_equal; lia.
Qed.

(** C10: [swap(a, b)] exchanges the [used_] stacks, the [cached_] stacks and
    the two counters of [a] and [b]; the allocator base of each arena is not
    touched, so each arena keeps its own allocator. *)
Theorem swap_exchanges_stacks_and_counters a b :
  memory_arena.swap a b
  = (memory_arena.Build (memory_arena.allocator a)
       (memory_arena.used_ b) (memory_arena.cached_ b)
       (memory_arena.no_used_ b) (memory_arena.no_cached_ b),
     memory_arena.Build (memory_arena.allocator b)
       (memory_arena.used_ a) (memory_arena.cached_ a)
       (memory_arena.no_used_ a) (memory_arena.no_cached_ a))
  ∧ memory_arena.allocator (memory_arena.swap a b).1 = memory_arena.allocator a
  ∧ memory_arena.allocator (memory_arena.swap a b).2 = memory_arena.allocator b
  ∧ memory_arena.get_allocator (memory_arena.swap a b).1
    = memory_arena.Normal (memory_arena.allocator a)
        (memory_arena.swap a b).1 ([] : list (call E)).
Proof. done. Qed.

(** ** The loops of [shrink_to_fit] and of the destructor *)

(** [steal_all] is the loop it stands for: nothing to do on an empty
    [other], else one [steal_top] and the loop again. *)
Lemma steal_all_loop (this other : detail.memory_block_stack) :
  memory_arena.steal_all this other
  = if detail.empty other then (this, other)
    else match detail.steal_top this other with
         | Some (this', other') => memory_arena.steal_all this' other'
         | None => (this, other)
         end.
Proof. by destruct other. Qed.

Lemma steal_all_reverses (this other : detail.memory_block_stack) :
  memory_arena.steal_all this other = (rev other ++ this, []).
Proof.
  revert this. induction other as [|block other IH]; intros this; [done|].
  simpl. rewrite IH. by rewrite <- app_assoc.
Qed.

Lemma release_all_app (s1 s2 : detail.memory_block_stack) (alloc : A) :
  release_all (s1 ++ s2) alloc = release_all s2 (release_all s1 alloc).
Proof. unfold release_all. by rewrite foldl_app. Qed.

Lemma deallocate_all_calls to_dealloc a :
  memory_arena.deallocate_all to_dealloc a
  = memory_arena.Normal tt
      (memory_arena.set_allocator
         (release_all to_dealloc (memory_arena.allocator a)) a)
      (map call_deallocate_block to_dealloc : list (call E)).
Proof.
  revert a. induction to_dealloc as [|block rest IH]; intros a.
  - by destruct a.
  - simpl. unfold_monad. unfold memory_arena.allocator_deallocate_block.
    rewrite IH. by destruct a.
Qed.

Lemma pop_used_while_not_empty_calls a :
  memory_arena.pop_used_while_not_empty (memory_arena.used_ a) a
  = memory_arena.Normal tt
      (memory_arena.Build
         (release_all (memory_arena.used_ a) (memory_arena.allocator a))
         [] (memory_arena.cached_ a)
         (memory_arena.no_used_ a) (memory_arena.no_cached_ a))
      (map call_deallocate_block (memory_arena.used_ a) : list (call E)).
Proof.
  destruct a as [alloc used cached nu nc]; simpl.
  revert alloc. induction used as [|block rest IH]; intros alloc; [done|].
  simpl. unfold_members. unfold_monad. simpl.
  unfold memory_arena.set_used, memory_arena.set_allocator; simpl.
  by rewrite IH.
Qed.

Lemma shrink_to_fit_calls a :
  memory_arena.shrink_to_fit a
  = memory_arena.Normal tt
      (memory_arena.Build
         (release_all (rev (memory_arena.cached_ a)) (memory_arena.allocator a))
         (memory_arena.used_ a) [] (memory_arena.no_used_ a) 0)
      (map call_deallocate_block (rev (memory_arena.cached_ a))
        : list (call E)).
Proof.
  destruct a as [alloc used cached nu nc].
  unfold_members. unfold_monad. simpl.
  rewrite steal_all_reverses, app_nil_r.
  rewrite deallocate_all_calls. simpl. by rewrite app_nil_r.
Qed.

Lemma destroy_calls a :
  memory_arena.destroy a
  = memory_arena.Normal tt
      (memory_arena.Build
         (release_all (rev (memory_arena.cached_ a) ++ memory_arena.used_ a)
            (memory_arena.allocator a))
         [] [] (memory_arena.no_used_ a) (memory_arena.no_cached_ a))
      (map call_deallocate_block
         (rev (memory_arena.cached_ a) ++ memory_arena.used_ a)
        : list (call E)).
Proof.
  destruct a as [alloc used cached nu nc].
  unfold memory_arena.destroy. unfold_monad. simpl.
  rewrite steal_all_reverses.
  pose proof (pop_used_while_not_empty_calls
    (memory_arena.Build alloc (rev cached ++ used) [] nu nc)) as Hpop.
  simpl in Hpop. unfold memory_arena.set_cached, memory_arena.set_used; simpl.
  by rewrite Hpop.
Qed.

(** ** One arena: what a run keeps true *)

Lemma outstanding_from_app (live : list memory_block)
  (calls1 calls2 : list (call E)) :
  outstanding_from live (calls1 ++ calls2)
  = outstanding_from live calls1 ≫= λ live', outstanding_from live' calls2.
Proof.
  revert live. induction calls1 as [|c calls1 IH]; intros live; [done|].
  simpl. destruct (outstanding_step live c); [apply IH|done].
Qed.

Lemma outstanding_from_release (s live : list memory_block) :
  outstanding_from (s ++ live) (map call_deallocate_block s : list (call E))
  = Some live.
Proof.
  induction s as [|block s IH]; [done|].
  simpl. by rewrite decide_True.
Qed.

Lemma obtained_app (calls1 calls2 : list (call E)) :
  obtained (calls1 ++ calls2) = (obtained calls1 + obtained calls2)%nat.
Proof.
  induction calls1 as [|[[e|block]|block] calls1 IH]; simpl; lia.
Qed.

Lemma returned_app (calls1 calls2 : list (call E)) :
  returned (calls1 ++ calls2) = (returned calls1 + returned calls2)%nat.
Proof.
  induction calls1 as [|[[e|block]|block] calls1 IH]; simpl; lia.
Qed.

Lemma obtained_release (s : list memory_block) :
  obtained (map call_deallocate_block s : list (call E)) = 0%nat.
Proof. induction s; simpl; done. Qed.

Lemma returned_release (s : list memory_block) :
  returned (map call_deallocate_block s : list (call E)) = length s.
Proof. induction s; simpl; lia. Qed.

Lemma size_t_modulus_pos : 0 < size_t_modulus.
Proof. done. Qed.

Lemma to_size_t_succ (z : Z) : to_size_t (to_size_t z + 1) = to_size_t (z + 1).
Proof. unfold to_size_t. by rewrite Z.add_mod_idemp_l. Qed.

Lemma to_size_t_pred (z : Z) : to_size_t (to_size_t z - 1) = to_size_t (z - 1).
Proof. unfold to_size_t. by rewrite Zminus_mod_idemp_l. Qed.

Lemma no_cached_zero (nc nu : Z) :
  0 ≤ nc < size_t_modulus → 0 ≤ nu < size_t_modulus →
  to_size_t (nc + nu) = nu → nc = 0.
Proof.
  intros Hnc Hnu. unfold to_size_t.
  destruct (decide (nc + nu < size_t_modulus)) as [Hlt|Hge].
  - rewrite Z.mod_small by lia. lia.
  - replace (nc + nu) with (nc + nu - size_t_modulus + 1 * size_t_modulus)
      by lia.
    rewrite Z_mod_plus_full, Z.mod_small by lia. lia.
Qed.

Lemma counted_size_t_fields a : counted a → size_t_fields a.
Proof.
  unfold counted, size_t_fields. intros [-> ->].
  split; apply to_size_t_range.
Qed.

Lemma consistent_counted a : consistent a → counted a.
Proof.
  intros (Hnu & Hnc & Hlt). unfold owned in Hlt.
  split; [rewrite Hnu | rewrite Hnc]; symmetry; apply to_size_t_small; lia.
Qed.

Lemma counted_consistent a :
  counted a → Z.of_nat (owned a) < size_t_modulus → consistent a.
Proof.
  intros [Hnu Hnc] Hlt. unfold owned in Hlt.
  split_and!; [rewrite Hnu | rewrite Hnc | done]; apply to_size_t_small; lia.
Qed.

(** With counters that count, [allocate_block] asks the allocator only when
    [cached_] is empty. *)
Lemma growth_without_cache a :
  counted a → asserts_hold a = true →
  to_size_t (memory_arena.no_cached_ a + memory_arena.no_used_ a)
  = memory_arena.no_used_ a →
  memory_arena.cached_ a = [].
Proof.
  intros Hc Hassert Heq.
  destruct (counted_size_t_fields a Hc) as [Hnu Hnc].
  apply no_cached_zero in Heq; [|done..].
  unfold asserts_hold in Hassert. rewrite Heq in Hassert. simpl in Hassert.
  apply andb_true_iff in Hassert as [Hassert _].
  by destruct (memory_arena.cached_ a).
Qed.

Lemma construct_counted (alloc : A) : counted (memory_arena.construct alloc).
Proof. done. Qed.

Lemma perform_step op a a' (calls : list (call E)) :
  counted a →
  after (perform node_offset op a) = Some (a', calls) →
  counted a'
  ∧ outstanding_from (rev (memory_arena.cached_ a) ++ memory_arena.used_ a)
      calls
    = Some (rev (memory_arena.cached_ a') ++ memory_arena.used_ a')
  ∧ (owned a' + returned calls = owned a + obtained calls)%nat.
Proof.
  intros Hc Hstep. pose proof Hc as [Hnu Hnc].
  destruct op; simpl in Hstep.
  - (* allocate_block *)
    unfold memory_arena.bind in Hstep. rewrite allocate_block_unfold in Hstep.
    destruct (asserts_hold a) eqn:Hassert; [|done].
    destruct (_ =? _) eqn:Heq.
    + apply Z.eqb_eq in Heq.
      pose proof (growth_without_cache a Hc Hassert Heq) as Hcached.
      destruct (allocator_type.allocate_block _) as [[e|block] alloc];
        simpl in Hstep; injection Hstep as <- <-.
      * unfold counted, owned; simpl. rewrite Hcached.
        rewrite Hcached in Hnc. done.
      * unfold counted, owned; simpl. rewrite Hcached.
        rewrite Hcached in Hnc. split_and!; try done; try lia.
        rewrite Hnu, to_size_t_succ. f_equal. lia.
    + destruct (memory_arena.cached_ a) as [|block rest] eqn:Hcached; [done|].
      simpl in Hstep; injection Hstep as <- <-.
      unfold counted, owned; simpl. rewrite Hcached. split_and!.
      * rewrite Hnu, to_size_t_succ. f_equal. lia.
      * rewrite ?Hcached in Hnc. rewrite Hnc, to_size_t_pred.
        f_equal. simpl. lia.
      * simpl. by rewrite <- app_assoc.
      * simpl. lia.
  - (* deallocate_block *)
    rewrite deallocate_block_unfold in Hstep.
    destruct (memory_arena.used_ a) as [|block rest] eqn:Hused; [done|].
    simpl in Hstep; injection Hstep as <- <-.
    unfold counted, owned; simpl. rewrite Hused. split_and!.
    + rewrite ?Hused in Hnu. rewrite Hnu, to_size_t_pred.
      f_equal. simpl. lia.
    + rewrite Hnc, to_size_t_succ. f_equal. lia.
    + simpl. by rewrite <- app_assoc.
    + simpl. lia.
  - (* shrink_to_fit *)
    rewrite shrink_to_fit_calls in Hstep. simpl in Hstep.
    injection Hstep as <- <-.
    unfold counted, owned; simpl. split_and!; try done.
    + apply outstanding_from_release.
    + rewrite obtained_release, returned_release, length_rev. lia.
Qed.

Lemma run_invariant ops a a' (calls : list (call E)) :
  counted a →
  run node_offset ops a = Some (a', calls) →
  counted a'
  ∧ outstanding_from (rev (memory_arena.cached_ a) ++ memory_arena.used_ a)
      calls
    = Some (rev (memory_arena.cached_ a') ++ memory_arena.used_ a').
Proof.
  revert a calls. induction ops as [|op ops IH]; intros a calls Hc Hrun.
  - simpl in Hrun. injection Hrun as <- <-. done.
  - simpl in Hrun.
    destruct (after (perform node_offset op a)) as [[a1 calls1]|] eqn:Hstep;
      [|done].
    destruct (run node_offset ops a1) as [[a2 calls2]|] eqn:Hrest; [|done].
    injection Hrun as <- <-.
    destruct (perform_step op a a1 calls1 Hc Hstep) as (Hc1 & Hout1 & _).
    destruct (IH a1 calls2 Hc1 Hrest) as [Hc2 Hout2].
    split; [done|]. by rewrite outstanding_from_app, Hout1.
Qed.

(** ** Move assignment *)

Lemma move_construct_transfers (other : memory_arena.t A) :
  memory_arena.move_construct other
  = (other,
     memory_arena.Build
       (allocator_type.moved_from (memory_arena.allocator other)) [] [] 0 0).
Proof. by destruct other. Qed.

Lemma move_assign_unfold (other this : memory_arena.t A) :
  memory_arena.move_assign other this
  = memory_arena.Normal
      (memory_arena.Build
         (allocator_type.moved_from (memory_arena.allocator other)) [] [] 0 0)
      (memory_arena.Build (memory_arena.allocator this)
         (memory_arena.used_ other) (memory_arena.cached_ other)
         (memory_arena.no_used_ other) (memory_arena.no_cached_ other))
      (map call_deallocate_block
         (rev (memory_arena.cached_ this) ++ memory_arena.used_ this)
        : list (call E)).
Proof.
  unfold memory_arena.move_assign. rewrite move_construct_transfers.
  unfold_monad. unfold memory_arena.on_local. simpl.
  rewrite destroy_calls. simpl. by rewrite app_nil_r.
Qed.

(** Move assignment gives the object the stacks and the counters of
    [other] and keeps the allocator the object had; the blocks the object
    owned are given to the allocator moved out of [other]. *)
Lemma move_assign_keeps_allocator (other this : memory_arena.t A) :
  ∃ other' this' (calls : list (call E)),
    memory_arena.move_assign other this
    = memory_arena.Normal other' this' calls
    ∧ memory_arena.allocator this' = memory_arena.allocator this
    ∧ memory_arena.used_ this' = memory_arena.used_ other
    ∧ memory_arena.cached_ this' = memory_arena.cached_ other
    ∧ memory_arena.no_used_ this' = memory_arena.no_used_ other
    ∧ memory_arena.no_cached_ this' = memory_arena.no_cached_ other.
Proof. rewrite move_assign_unfold. eexists _, _, _. split_and!; done. Qed.

(** ** Several arenas: what every step keeps true *)

Lemma acquired_app (calls1 calls2 : list (call E)) :
  acquired (calls1 ++ calls2) = acquired calls1 ++ acquired calls2.
Proof.
  induction calls1 as [|[[e|block]|block] calls1 IH]; simpl; [done..| |done].
  by rewrite IH.
Qed.

Lemma acquired_release (s : list memory_block) :
  acquired (map call_deallocate_block s : list (call E)) = [].
Proof. induction s; simpl; done. Qed.

Lemma outstanding_from_count (calls : list (call E))
  (live live' : list memory_block) :
  outstanding_from live calls = Some live' →
  (length live' + returned calls = length live + obtained calls)%nat.
Proof.
  revert live. induction calls as [|[[e|block]|block] calls IH];
    intros live Hout; simpl in Hout.
  - injection Hout as <-. simpl. lia.
  - specialize (IH _ Hout). simpl. lia.
  - specialize (IH _ Hout). simpl in *. lia.
  - destruct live as [|latest live0]; [done|].
    destruct (decide (latest = block)); [|done].
    specialize (IH _ Hout). simpl. lia.
Qed.

Lemma perform_step_order op a a' (calls : list (call E)) :
  counted a →
  after (perform node_offset op a) = Some (a', calls) →
  in_order a' `sublist_of` in_order a ++ acquired calls.
Proof.
  intros Hc Hstep. unfold in_order.
  destruct op; simpl in Hstep.
  - (* allocate_block *)
    unfold memory_arena.bind in Hstep. rewrite allocate_block_unfold in Hstep.
    destruct (asserts_hold a) eqn:Hassert; [|done].
    destruct (_ =? _) eqn:Heq.
    + apply Z.eqb_eq in Heq.
      pose proof (growth_without_cache a Hc Hassert Heq) as Hcached.
      destruct (allocator_type.allocate_block _) as [[e|block] alloc];
        simpl in Hstep; injection Hstep as <- <-; simpl; rewrite Hcached.
      * by rewrite !app_nil_r.
      * by rewrite !app_nil_r.
    + destruct (memory_arena.cached_ a) as [|block rest] eqn:Hcached; [done|].
      simpl in Hstep; injection Hstep as <- <-. simpl.
      by rewrite app_nil_r, <- app_assoc.
  - (* deallocate_block *)
    rewrite deallocate_block_unfold in Hstep.
    destruct (memory_arena.used_ a) as [|block rest] eqn:Hused; [done|].
    simpl in Hstep; injection Hstep as <- <-. simpl.
    by rewrite app_nil_r, <- app_assoc.
  - (* shrink_to_fit *)
    rewrite shrink_to_fit_calls in Hstep. simpl in Hstep.
    injection Hstep as <- <-. simpl.
    rewrite acquired_release, !app_nil_r. by apply sublist_inserts_r.
Qed.

Lemma blocks_owned_app (l1 l2 : list (memory_arena.t A * list (call E))) :
  blocks_owned (l1 ++ l2) = (blocks_owned l1 + blocks_owned l2)%nat.
Proof. induction l1 as [|sl l1 IH]; simpl; lia. Qed.

Lemma blocks_owned_insert (l : list (memory_arena.t A * list (call E)))
  i sl sl' :
  l !! i = Some sl →
  (blocks_owned (<[i:=sl']> l) + owned sl.1 = blocks_owned l + owned sl'.1)%nat.
Proof.
  revert i. induction l as [|x l IH]; intros [|i] Hi; simplify_eq/=.
  - lia.
  - specialize (IH i Hi). lia.
Qed.

Lemma blocks_owned_lookup (l : list (memory_arena.t A * list (call E))) i sl :
  l !! i = Some sl → (owned sl.1 ≤ blocks_owned l)%nat.
Proof.
  revert i. induction l as [|x l IH]; intros [|i] Hi; simplify_eq/=.
  - lia.
  - specialize (IH i Hi). lia.
Qed.

Lemma blocks_out_app (calls1 calls2 : list (call E)) :
  blocks_out (calls1 ++ calls2) = blocks_out calls1 + blocks_out calls2.
Proof. unfold blocks_out. rewrite obtained_app, returned_app. lia. Qed.

Lemma slot_ok_later (calls1 calls2 : list (call E))
  (sl : memory_arena.t A * list (call E)) :
  slot_ok calls1 sl → slot_ok (calls1 ++ calls2) sl.
Proof.
  intros [Hc Horder]. split; [done|].
  rewrite acquired_app. by apply sublist_inserts_r.
Qed.

Lemma exec_world_ok (act : action) (w w' : world) :
  world_ok w → exec node_offset act w = Some w' → world_ok w'.
Proof.
  intros [Hslots Hblocks] Hexec.
  destruct act as [alloc|i op|i j]; unfold exec in Hexec.
  - (* a new arena *)
    injection Hexec as <-. split; simpl.
    + apply Forall_app. split; [done|]. apply Forall_singleton.
      split; [done|]. apply sublist_nil_l.
    + rewrite blocks_owned_app. simpl.
      change (owned (memory_arena.construct alloc)) with 0%nat. lia.
  - (* a member call *)
    destruct (arenas w !! i) as [[a own]|] eqn:Hi; [|done].
    cbv beta iota delta [mbind option_bind] in Hexec.
    destruct (after _) as [[a' calls]|] eqn:Hstep; [|done].
    simpl in Hexec. injection Hexec as <-.
    pose proof (Forall_lookup_1 _ _ _ _ Hslots Hi) as [Hc Horder].
    simpl in Hc, Horder.
    destruct (perform_step op a a' calls Hc Hstep) as (Hc' & _ & Howned).
    pose proof (perform_step_order op a a' calls Hc Hstep) as Horder'.
    split; simpl.
    + apply Forall_insert.
      * eapply Forall_impl; [exact Hslots|]. intros sl. apply slot_ok_later.
      * split; [done|]. simpl. rewrite acquired_app.
        etrans; [exact Horder'|]. by apply sublist_app.
    + rewrite blocks_out_app, <- Hblocks.
      pose proof (blocks_owned_insert _ i (a, own) (a', own ++ calls) Hi)
        as Hins.
      simpl in Hins. unfold blocks_out. lia.
  - (* swap *)
    destruct (arenas w !! i) as [[a own_a]|] eqn:Hi; [|done].
    destruct (arenas w !! j) as [[b own_b]|] eqn:Hj; [|done].
    simpl in Hexec. injection Hexec as <-.
    pose proof (Forall_lookup_1 _ _ _ _ Hslots Hi) as [Ha Horder_a].
    pose proof (Forall_lookup_1 _ _ _ _ Hslots Hj) as [Hb Horder_b].
    split; simpl.
    + apply Forall_insert; [|by split].
      apply Forall_insert; [done|]. by split.
    + rewrite <- Hblocks. f_equal.
      set (a' := memory_arena.Build (memory_arena.allocator a) _ _ _ _).
      set (b' := memory_arena.Build (memory_arena.allocator b) _ _ _ _).
      pose proof (blocks_owned_insert _ i (a, own_a) (a', own_a) Hi) as H1.
      assert (Hj' : ∃ x, <[i:=(a', own_a)]> (arenas w) !! j = Some x
                         ∧ owned x.1 = if decide (i = j) then owned b
                                       else owned b).
      { destruct (decide (i = j)) as [->|Hne].
        - exists (a', own_a). split; [|done].
          apply list_lookup_insert_eq. by eapply lookup_lt_Some.
        - exists (b, own_b). split; [|done].
          by rewrite list_lookup_insert_ne. }
      destruct Hj' as (x & Hx & Hox).
      pose proof (blocks_owned_insert _ j x (b', own_b) Hx) as H2.
      assert (Hab : i = j → owned a = owned b)
        by (intros ->; congruence).
      change (owned (a', own_a).1) with (owned b) in H1.
      change (owned (b', own_b).1) with (owned a) in H2.
      simpl in H1. destruct (decide (i = j)) as [Heq|Hne].
      * specialize (Hab Heq). lia.
      * lia.
Qed.

Lemma exec_all_world_ok (acts : list action) (w w' : world) :
  world_ok w → exec_all node_offset acts w = Some w' → world_ok w'.
Proof.
  revert w. induction acts as [|act acts IH]; intros w Hok Hexec.
  - simpl in Hexec. by injection Hexec as <-.
  - simpl in Hexec.
    destruct (exec node_offset act w) as [w1|] eqn:Hstep; [|done].
    eapply IH; [|done]. by eapply exec_world_ok.
Qed.

Lemma initial_world_ok : world_ok (@initial_world A E).
Proof. split; [constructor|done]. Qed.

Lemma exec_own_ok i (act : action) (w w' : world) :
  world_ok w →
  swaps i act = false →
  exec node_offset act w = Some w' →
  (∀ sl, arenas w !! i = Some sl → own_ok sl) →
  ∀ sl', arenas w' !! i = Some sl' → own_ok sl'.
Proof.
  intros [Hslots _] Hswaps Hexec Hown sl' Hs'.
  destruct act as [alloc|j op|j k]; unfold exec in Hexec.
  - (* a new arena *)
    injection Hexec as <-. simpl in Hs'.
    apply lookup_app_Some in Hs' as [Hs'|[_ Hs']]; [by apply Hown|].
    apply list_lookup_singleton_Some in Hs' as [_ <-]. done.
  - (* a member call *)
    destruct (arenas w !! j) as [[a own]|] eqn:Hj; [|done].
    cbv beta iota delta [mbind option_bind] in Hexec.
    destruct (after _) as [[a' calls]|] eqn:Hstep; [|done].
    simpl in Hexec. injection Hexec as <-. simpl in Hs'.
    destruct (decide (j = i)) as [->|Hne].
    + rewrite list_lookup_insert_eq in Hs' by (by eapply lookup_lt_Some).
      injection Hs' as <-.
      pose proof (Forall_lookup_1 _ _ _ _ Hslots Hj) as [Hc _].
      simpl in Hc.
      destruct (perform_step op a a' calls Hc Hstep) as (_ & Hout & _).
      pose proof (Hown _ Hj) as Hold. unfold own_ok in *; simpl in *.
      unfold outstanding in *. by rewrite outstanding_from_app, Hold.
    + rewrite list_lookup_insert_ne in Hs' by done. by apply Hown.
  - (* a swap of two other arenas *)
    simpl in Hswaps. apply orb_false_iff in Hswaps as [Hj Hk].
    apply bool_decide_eq_false in Hj, Hk.
    destruct (arenas w !! j) as [[a own_a]|] eqn:Hja; [|done].
    destruct (arenas w !! k) as [[b own_b]|] eqn:Hkb; [|done].
    simpl in Hexec. injection Hexec as <-. simpl in Hs'.
    rewrite !list_lookup_insert_ne in Hs' by done. by apply Hown.
Qed.

Lemma exec_all_own_ok i (acts : list action) (w w' : world) :
  world_ok w →
  never_swapped i acts = true →
  exec_all node_offset acts w = Some w' →
  (∀ sl, arenas w !! i = Some sl → own_ok sl) →
  ∀ sl', arenas w' !! i = Some sl' → own_ok sl'.
Proof.
  revert w. induction acts as [|act acts IH]; intros w Hok Hnever Hexec Hown.
  - simpl in Hexec. by injection Hexec as <-.
  - simpl in Hexec, Hnever.
    apply andb_true_iff in Hnever as [Hact Hnever].
    apply negb_true_iff in Hact.
    destruct (exec node_offset act w) as [w1|] eqn:Hstep; [|done].
    eapply (IH w1); [by eapply exec_world_ok|done|done|].
    by eapply exec_own_ok.
Qed.

Lemma own_ok_count (a : memory_arena.t A) (own : list (call E)) :
  own_ok (a, own) → blocks_out own = Z.of_nat (owned a).
Proof.
  unfold own_ok, outstanding; simpl. intros Hout.
  apply outstanding_from_count in Hout. simpl in Hout.
  rewrite length_app, length_rev in Hout.
  unfold blocks_out, owned. lia.
Qed.

(** C1: in every state a program reaches by constructing arenas, by
    calling [allocate_block], [deallocate_block] and [shrink_to_fit] on them
    and by swapping them, [capacity()] of an arena never exceeds the number
    of blocks obtained from the allocators of all the arenas and not given
    back, and for an arena that has taken part in no swap it never exceeds
    the number of blocks obtained from its own allocator and not given
    back; and as long as the blocks of the arena can be counted in a
    [std::size_t] (the address space holds no more), [capacity()] is
    [size()] plus [no_cached_], [no_used_] is 0 exactly when [used_] is
    empty and [no_cached_] is 0 exactly when [cached_] is empty. *)
Theorem arena_counters_consistent_under_swap
  (acts : list action) (w : world) i a (own : list (call E)) :
  exec_all node_offset acts initial_world = Some w →
  arenas w !! i = Some (a, own) →
  (∀ c a' (calls : list (call E)),
     memory_arena.capacity a = memory_arena.Normal c a' calls →
     c ≤ blocks_out (history w)
     ∧ (never_swapped i acts = true → c ≤ blocks_out own))
  ∧ (Z.of_nat (owned a) < size_t_modulus →
     memory_arena.size a
     = memory_arena.Normal (memory_arena.no_used_ a) a ([] : list (call E))
     ∧ memory_arena.capacity a
       = memory_arena.Normal
           (memory_arena.no_used_ a + memory_arena.no_cached_ a) a
           ([] : list (call E))
     ∧ (memory_arena.no_used_ a = 0 ↔ memory_arena.used_ a = [])
     ∧ (memory_arena.no_cached_ a = 0 ↔ memory_arena.cached_ a = [])).
Proof.
  intros Hexec Hi.
  destruct (exec_all_world_ok acts _ w initial_world_ok Hexec)
    as [Hslots Hblocks].
  pose proof (Forall_lookup_1 _ _ _ _ Hslots Hi) as [Hc _]. simpl in Hc.
  split.
  - intros c a' calls (_ & -> & _)%capacity_Normal.
    assert (Hle : to_size_t (memory_arena.no_cached_ a + memory_arena.no_used_ a)
                  ≤ Z.of_nat (owned a)).
    { destruct Hc as [-> ->]. unfold owned.
      pose proof size_t_modulus_pos as Hpos.
      unfold to_size_t.
      set (lu := Z.of_nat (length (memory_arena.used_ a))) in *.
      set (lc := Z.of_nat (length (memory_arena.cached_ a))) in *.
      assert (0 ≤ lu ∧ 0 ≤ lc) as [Hlu Hlc] by (subst lu lc; lia).
      pose proof (Z.mod_le lu size_t_modulus Hlu Hpos).
      pose proof (Z.mod_le lc size_t_modulus Hlc Hpos).
      pose proof (Z.mod_pos_bound lu size_t_modulus Hpos).
      pose proof (Z.mod_pos_bound lc size_t_modulus Hpos).
      etrans; [apply Z.mod_le; lia|]. subst lu lc. lia. }
    split.
    + pose proof (blocks_owned_lookup _ i _ Hi) as Hsum. simpl in Hsum.
      rewrite <- Hblocks. lia.
    + intros Hnever.
      assert (Hown : own_ok (a, own)).
      { eapply (exec_all_own_ok i acts initial_world w initial_world_ok
                  Hnever Hexec); [|exact Hi].
        intros sl Hsl. simpl in Hsl. by rewrite lookup_nil in Hsl. }
      by rewrite (own_ok_count a own Hown).
  - intros Hlt.
    destruct (counted_consistent a Hc Hlt) as (Hnu & Hnc & _).
    unfold owned in Hlt.
    assert (Hu0 : memory_arena.no_used_ a = 0 ↔ memory_arena.used_ a = []).
    { rewrite Hnu. by destruct (memory_arena.used_ a). }
    assert (Hc0 : memory_arena.no_cached_ a = 0 ↔ memory_arena.cached_ a = []).
    { rewrite Hnc. by destruct (memory_arena.cached_ a). }
    split_and!; try done.
    + apply size_Normal. split_and!; try done.
      rewrite Hnu. by destruct (memory_arena.used_ a).
    + apply capacity_Normal. split_and!; try done.
      * rewrite Hnc. by destruct (memory_arena.cached_ a).
      * rewrite to_size_t_small by lia. lia.
Qed.

(** C3: [shrink_to_fit], in any state of the arena, returns with
    [no_cached_] at 0 and [cached_] empty and leaves [used_] and [no_used_]
    alone.  It drains [cached_] into the temporary stack and pops that
    stack: its calls on the allocator are one [deallocate_block] for each
    block of [cached_] and nothing else, in the order of [cached_]
    reversed, and the allocator it leaves in the arena is the one that got
    these blocks back in this order.  In an arena reached by member calls
    from its construction these are the latest blocks the allocator has
    handed out and not got back, latest first, and the allocator is left
    with the blocks of [used_] out.  In an arena of a program that also
    swaps arenas, the blocks of [used_] from the oldest and then those of
    [cached_] from its top stand in the order they were obtained, so that
    the cached blocks go back in the reverse of that order. *)
Theorem shrink_to_fit_releases_cache a :
  (∃ a',
     memory_arena.shrink_to_fit a
     = memory_arena.Normal tt a'
         (map call_deallocate_block (rev (memory_arena.cached_ a))
           : list (call E))
     ∧ memory_arena.allocator a'
       = release_all (rev (memory_arena.cached_ a)) (memory_arena.allocator a)
     ∧ memory_arena.no_cached_ a' = 0
     ∧ memory_arena.cached_ a' = []
     ∧ memory_arena.used_ a' = memory_arena.used_ a
     ∧ memory_arena.no_used_ a' = memory_arena.no_used_ a
     ∧ memory_arena.steal_all detail.empty_stack (memory_arena.cached_ a)
       = (rev (memory_arena.cached_ a), []))
  ∧ (∀ ops (alloc : A) (calls : list (call E)),
       run node_offset ops (memory_arena.construct alloc) = Some (a, calls) →
       outstanding calls
       = Some (rev (memory_arena.cached_ a) ++ memory_arena.used_ a)
       ∧ outstanding
           (calls ++ map call_deallocate_block (rev (memory_arena.cached_ a)))
         = Some (memory_arena.used_ a))
  ∧ (∀ (acts : list action) (w : world) i (own : list (call E)),
       exec_all node_offset acts initial_world = Some w →
       arenas w !! i = Some (a, own) →
       rev (memory_arena.used_ a) ++ rev (rev (memory_arena.cached_ a))
       `sublist_of` acquired (history w)).
Proof.
  split_and!.
  - rewrite shrink_to_fit_calls. eexists; split_and!; try done.
    by rewrite steal_all_reverses, app_nil_r.
  - intros ops alloc calls Hrun.
    destruct (run_invariant ops _ a calls (construct_counted alloc) Hrun)
      as [_ Hout].
    change (outstanding calls = Some
      (rev (memory_arena.cached_ a) ++ memory_arena.used_ a)) in Hout.
    split; [done|].
    unfold outstanding in *. rewrite outstanding_from_app, Hout. simpl.
    apply outstanding_from_release.
  - intros acts w i own Hexec Hi.
    destruct (exec_all_world_ok acts _ w initial_world_ok Hexec)
      as [Hslots _].
    pose proof (Forall_lookup_1 _ _ _ _ Hslots Hi) as [_ Horder].
    by rewrite rev_involutive.
Qed.

(** C2: the destructor, in any state of the arena, drains [cached_] onto
    [used_] and pops [used_] until it is empty: it calls the allocator's
    [deallocate_block] once for each block of [used_] and of [cached_] and
    makes no other call, in the order [cached_] reversed, then [used_] from
    the top, and the allocator it leaves is the one that got these blocks
    back in this order.  For an arena reached by member calls from its
    construction, that order is the list of the blocks the allocator has
    handed out and not got back, latest first: afterwards the allocator has
    got back, in reverse order of acquisition, every block it ever handed
    out, each once.  In an arena of a program that also swaps arenas, the
    order of the calls reversed is the order in which the blocks were
    obtained. *)
Theorem destroy_releases_in_reverse a :
  (∃ a',
     memory_arena.destroy a
     = memory_arena.Normal tt a'
         (map call_deallocate_block
            (rev (memory_arena.cached_ a) ++ memory_arena.used_ a)
           : list (call E))
     ∧ memory_arena.allocator a'
       = release_all (rev (memory_arena.cached_ a) ++ memory_arena.used_ a)
           (memory_arena.allocator a)
     ∧ memory_arena.used_ a' = []
     ∧ memory_arena.cached_ a' = []
     ∧ memory_arena.steal_all (memory_arena.used_ a) (memory_arena.cached_ a)
       = (rev (memory_arena.cached_ a) ++ memory_arena.used_ a, [])
     ∧ rev (memory_arena.cached_ a) ++ memory_arena.used_ a
       ≡ₚ memory_arena.used_ a ++ memory_arena.cached_ a)
  ∧ (∀ ops (alloc : A) (calls : list (call E)),
       run node_offset ops (memory_arena.construct alloc) = Some (a, calls) →
       outstanding calls
       = Some (rev (memory_arena.cached_ a) ++ memory_arena.used_ a)
       ∧ outstanding
           (calls ++ map call_deallocate_block
                       (rev (memory_arena.cached_ a) ++ memory_arena.used_ a))
         = Some [])
  ∧ (∀ (acts : list action) (w : world) i (own : list (call E)),
       exec_all node_offset acts initial_world = Some w →
       arenas w !! i = Some (a, own) →
       rev (rev (memory_arena.cached_ a) ++ memory_arena.used_ a)
       `sublist_of` acquired (history w)).
Proof.
  split_and!.
  - rewrite destroy_calls. eexists; split_and!; try done.
    + apply steal_all_reverses.
    + rewrite <- Permutation_rev. apply Permutation_app_comm.
  - intros ops alloc calls Hrun.
    destruct (run_invariant ops _ a calls (construct_counted alloc) Hrun)
      as [_ Hout].
    change (outstanding calls = Some
      (rev (memory_arena.cached_ a) ++ memory_arena.used_ a)) in Hout.
    split; [done|].
    unfold outstanding in *. rewrite outstanding_from_app, Hout. simpl.
    rewrite <- (app_nil_r (rev _ ++ _)) at 1.
    apply outstanding_from_release.
  - intros acts w i own Hexec Hi.
    destruct (exec_all_world_ok acts _ w initial_world_ok Hexec)
      as [Hslots _].
    pose proof (Forall_lookup_1 _ _ _ _ Hslots Hi) as [_ Horder].
    by rewrite rev_app_distr, rev_involutive.
Qed.

End members.

(** ** The properties at work on the example allocator *)


Lemma example_arena_consistent : consistent example_arena.
Proof. repeat split. Defined.

Lemma arena_counters_consistent_under_swap_witness :
  memory_arena.capacity example_unswapped
  = memory_arena.Normal 2 example_unswapped ([] : list (call out_of_memory))
  ∧ 2 ≤ blocks_out (history example_world)
  ∧ 2 ≤ blocks_out example_unswapped_calls
  ∧ (memory_arena.no_cached_ example_unswapped = 0
     ↔ memory_arena.cached_ example_unswapped = []).
Proof.
  assert (Hexec : exec_all example_offset example_actions initial_world
                  = Some example_world) by (vm_compute; reflexivity).
  destruct (arena_counters_consistent_under_swap example_offset
              example_actions example_world 2 example_unswapped
              example_unswapped_calls Hexec eq_refl) as [Hle Hc].
  destruct (Hc eq_refl) as (_ & Hcap & _ & Hcached).
  destruct (Hle _ _ _ Hcap) as [Hall Hown].
  split_and!; [exact Hcap | exact Hall | exact (Hown eq_refl) | exact Hcached].
Defined.

(** C1, as the claim has it, fails: after [swap_actions] the first arena
    holds the two blocks the second one obtained, so its [capacity()] is 2,
    while its own allocator, still the one it was constructed with, has
    handed out no block at all. *)
Lemma swap_breaks_own_allocator_bound :
  exec_all example_offset swap_actions initial_world = Some swap_world
  ∧ arenas swap_world !! 0%nat = Some (swap_arena, [])
  ∧ memory_arena.allocator swap_arena = fixed_4096 65536 4
  ∧ memory_arena.capacity swap_arena
    = memory_arena.Normal 2 swap_arena ([] : list (call out_of_memory))
  ∧ blocks_out ([] : list (call out_of_memory)) = 0
  ∧ ¬ (2 ≤ blocks_out ([] : list (call out_of_memory))).
Proof.
  split_and!; [by vm_compute..|].
  vm_compute. intros Hle. by apply Hle.
Qed.

Lemma destroy_releases_in_reverse_witness :
  ∃ a',
    memory_arena.destroy example_arena
    = memory_arena.Normal tt a'
        [call_deallocate_block {| memory := 73728; size := 4096 |};
         call_deallocate_block {| memory := 69632; size := 4096 |};
         call_deallocate_block {| memory := 65536; size := 4096 |}]
    ∧ memory_arena.allocator a' = fixed_4096 65536 4
    ∧ outstanding example_calls
      = Some [{| memory := 73728; size := 4096 |};
              {| memory := 69632; size := 4096 |};
              {| memory := 65536; size := 4096 |}].
Proof.
  assert (Hrun : run example_offset example_ops
                   (memory_arena.construct (fixed_4096 65536 4))
                 = Some (example_arena, example_calls))
    by (vm_compute; reflexivity).
  destruct (destroy_releases_in_reverse (E := out_of_memory) example_offset
              example_arena)
    as ((a' & Hdestroy & Halloc & _) & Hreached & _).
  destruct (Hreached example_ops (fixed_4096 65536 4) example_calls Hrun)
    as [Hout _].
  exists a'. split_and!; [exact Hdestroy | exact Halloc | exact Hout].
Defined.

Lemma shrink_to_fit_releases_cache_witness :
  ∃ a',
    memory_arena.shrink_to_fit example_arena
    = memory_arena.Normal tt a'
        [call_deallocate_block {| memory := 73728; size := 4096 |};
         call_deallocate_block {| memory := 69632; size := 4096 |}]
    ∧ memory_arena.allocator a' = fixed_4096 69632 3
    ∧ memory_arena.no_cached_ a' = 0
    ∧ memory_arena.used_ a' = [{| memory := 65536; size := 4096 |}]
    ∧ outstanding
        (example_calls
         ++ [call_deallocate_block {| memory := 73728; size := 4096 |};
             call_deallocate_block {| memory := 69632; size := 4096 |}])
      = Some [{| memory := 65536; size := 4096 |}].
Proof.
  assert (Hrun : run example_offset example_ops
                   (memory_arena.construct (fixed_4096 65536 4))
                 = Some (example_arena, example_calls))
    by (vm_compute; reflexivity).
  destruct (shrink_to_fit_releases_cache (E := out_of_memory) example_offset
              example_arena)
    as ((a' & Hshrink & Halloc & Hcount & _ & Hused & _) & Hreached & _).
  destruct (Hreached example_ops (fixed_4096 65536 4) example_calls Hrun)
    as [_ Hout].
  exists a'.
  split_and!; [exact Hshrink | exact Halloc | exact Hcount | exact Hused
              | exact Hout].
Defined.

Lemma deallocate_then_allocate_reuses_witness :
  ∃ a1,
    memory_arena.deallocate_block example_arena
    = memory_arena.Normal tt a1 ([] : list (call out_of_memory))
    ∧ memory_arena.allocate_block example_offset a1
      = memory_arena.Normal {| memory := 65552; size := 4080 |}
          example_arena [].
Proof.
  destruct (deallocate_then_allocate_reuses example_offset example_arena
              {| memory := 65536; size := 4096 |} []
              example_arena_consistent eq_refl)
    as (a1 & Hdealloc & Halloc & _).
  exists a1. split; [exact Hdealloc | exact Halloc].
Defined.

Lemma allocate_block_branches_witness :
  (∃ a',
     memory_arena.allocate_block example_offset example_source
     = memory_arena.Normal {| memory := 69648; size := 4080 |} a'
         [call_allocate_block (inr {| memory := 69632; size := 4096 |})])
  ∧ (∃ a',
       memory_arena.allocate_block example_offset example_arena
       = memory_arena.Normal {| memory := 69648; size := 4080 |} a'
           ([] : list (call out_of_memory))).
Proof.
  split.
  - destruct (allocate_block_branches example_offset example_source 1 1)
      as [Hgrow _]; [by vm_compute|reflexivity|reflexivity|].
    destruct (Hgrow eq_refl) as (a' & Halloc & _).
    exists a'. exact Halloc.
  - destruct (allocate_block_branches example_offset example_arena 3 1)
      as [_ Hreuse]; [by vm_compute|reflexivity|reflexivity|].
    destruct Hreuse as (block & rest & a' & Hcached & _ & Halloc & _);
      [discriminate|].
    injection Hcached as <- <-. exists a'. exact Halloc.
Defined.

Lemma allocate_block_failure_atomic_witness :
  ∃ a',
    memory_arena.allocate_block example_offset example_exhausted
    = memory_arena.Raised OutOfMemory a'
        [call_allocate_block (inl OutOfMemory)]
    ∧ memory_arena.used_ a' = []
    ∧ memory_arena.no_used_ a' = 0.
Proof.
  destruct (allocate_block_failure_atomic example_offset example_exhausted
              0 OutOfMemory (fixed_4096 65536 0))
    as (a' & Halloc & Hused & _ & Hcount & _); [reflexivity..|].
  exists a'. split_and!; [exact Halloc | exact Hused | exact Hcount].
Defined.

Lemma deallocate_block_moves_top_witness :
  memory_arena.deallocate_block example_arena
  = memory_arena.Normal tt
      {| memory_arena.allocator := fixed_4096 77824 1;
         memory_arena.used_ := [];
         memory_arena.cached_ :=
           [{| memory := 65536; size := 4096 |};
            {| memory := 69632; size := 4096 |};
            {| memory := 73728; size := 4096 |}];
         memory_arena.no_used_ := 0;
         memory_arena.no_cached_ := 3 |}
      ([] : list (call out_of_memory)).
Proof.
  exact (proj1 (deallocate_block_moves_top example_arena
                  {| memory := 65536; size := 4096 |} []
                  example_arena_consistent eq_refl)).
Defined.

(** * Further properties of the code *)

(** ** memory_block and the block stack *)

(** X1: the (begin, end) constructor neither rejects nor clamps a reversed
    range: with [end] below [begin] the negative difference is converted to
    [std::size_t], and the block gets the size 2^64 - (begin - end), which
    is not zero. *)
Theorem memory_block_range_reversed (begin_ end_ : Z) :
  0 ≤ end_ → end_ < begin_ → begin_ < size_t_modulus →
  memory (memory_block_range begin_ end_) = begin_
  ∧ size (memory_block_range begin_ end_)
    = size_t_modulus - (begin_ - end_)
  ∧ 0 < size (memory_block_range begin_ end_).
Proof.
  intros He Hlt Hb. split; [done|].
  assert (Hsize : size (memory_block_range begin_ end_)
                  = size_t_modulus - (begin_ - end_)).
  { simpl. unfold to_size_t.
    replace (end_ - begin_)
      with (size_t_modulus - (begin_ - end_) + (-1) * size_t_modulus) by lia.
    rewrite Z_mod_plus_full. apply Z.mod_small. lia. }
  split; [done|]. rewrite Hsize. lia.
Qed.

(** X2: a block whose size is a [std::size_t] is what the (begin, end)
    constructor builds from its first address and the address after its
    last byte; from twice the same address it builds a block of size 0. *)
Theorem memory_block_range_round_trip (block : memory_block) :
  0 ≤ size block < size_t_modulus →
  memory_block_range (memory block) (memory block + size block) = block
  ∧ memory_block_range (memory block) (memory block)
    = memory_block_of (memory block) 0.
Proof.
  intros Hsize. destruct block as [mem sz]; simpl in *.
  unfold memory_block_range, memory_block_of.
  split; f_equal.
  - replace (mem + sz - mem) with sz by lia. by apply to_size_t_small.
  - by replace (mem - mem) with 0 by lia.
Qed.

(** X3: move assignment of a block stack gives the stack the chain of
    [other] and leaves [other] empty, whatever the stack held before; with
    the stack itself as [other] the stack keeps its chain. *)
Theorem stack_move_assign_takes_chain (this other : detail.memory_block_stack) :
  (detail.move_assign this other).1 = other
  ∧ detail.empty (detail.move_assign this other).2 = true
  ∧ detail.empty (detail.move_assign this other).1 = detail.empty other
  ∧ detail.move_assign_self this = this.
Proof. done. Qed.

(** ** memory_arena *)

Section more_members.

Context {A E : Type} `{!allocator_type.BlockAllocator A E}.
Variable node_offset : Z.

Implicit Types (a b : memory_arena.t A) (block : memory_block).

Lemma consistent_asserts a : consistent a → asserts_hold a = true.
Proof.
  destruct a as [alloc used cached nu nc].
  unfold consistent, asserts_hold; simpl. intros (-> & -> & _).
  by destruct used, cached.
Qed.

Lemma consistent_size a :
  consistent a →
  memory_arena.size a
  = memory_arena.Normal (memory_arena.no_used_ a) a ([] : list (call E)).
Proof.
  intros Hcons. apply size_Normal. split_and!; try done.
  pose proof (consistent_asserts a Hcons) as Hassert.
  unfold asserts_hold in Hassert. by apply andb_true_iff in Hassert as [_ ?].
Qed.

Lemma consistent_capacity a :
  consistent a →
  memory_arena.capacity a
  = memory_arena.Normal
      (memory_arena.no_used_ a + memory_arena.no_cached_ a) a
      ([] : list (call E)).
Proof.
  intros Hcons. apply capacity_Normal. split_and!; try done.
  - pose proof (consistent_asserts a Hcons) as Hassert.
    unfold asserts_hold in Hassert.
    by apply andb_true_iff in Hassert as [? _].
  - destruct Hcons as (Hnu & Hnc & Hlt). unfold owned in Hlt.
    rewrite to_size_t_small by lia. lia.
Qed.

(** X4: in an arena whose counters count its stacks and that owns fewer
    than 2^64 - 1 blocks, [allocate_block] always has a defined outcome.
    When it returns, the counters still count the stacks, [no_used_] has
    grown by one and the arena owns one block more for each call it made
    on the allocator; when it leaves by the allocator's exception, the
    counters still count the stacks and the arena owns what it owned. *)
Theorem allocate_block_keeps_consistent a :
  consistent a →
  Z.of_nat (owned a) + 1 < size_t_modulus →
  match memory_arena.allocate_block node_offset a with
  | memory_arena.Normal _ a' calls =>
      consistent a'
      ∧ memory_arena.no_used_ a' = memory_arena.no_used_ a + 1
      ∧ owned a' = (owned a + length calls)%nat
  | memory_arena.Raised _ a' calls =>
      consistent a'
      ∧ memory_arena.no_used_ a' = memory_arena.no_used_ a
      ∧ owned a' = owned a
  | memory_arena.Undefined => False
  end.
Proof.
  intros Hcons Hroom.
  rewrite allocate_block_unfold, (consistent_asserts a Hcons).
  destruct a as [alloc used cached nu nc].
  unfold consistent, owned in *; simpl in *.
  destruct Hcons as (-> & -> & Hlt).
  rewrite (to_size_t_small (_ + _)) by lia.
  destruct cached as [|block rest]; simpl in *.
  - rewrite Z.eqb_refl.
    destruct (allocator_type.allocate_block alloc) as [[e|block] alloc'];
      simpl.
    + split_and!; done.
    + rewrite to_size_t_small by lia. split_and!; simpl; lia.
  - replace (_ =? _) with false by (symmetry; apply Z.eqb_neq; lia).
    rewrite !to_size_t_small by lia. split_and!; simpl; lia.
Qed.

(** X5: in an arena whose counters count its stacks, [deallocate_block]
    has no defined behaviour exactly when [used_] is empty.  Otherwise it
    returns without a call on the allocator, the counters still count the
    stacks, [size()] is one less and [capacity()] is what it was. *)
Theorem deallocate_block_keeps_capacity a :
  consistent a →
  match memory_arena.deallocate_block a with
  | memory_arena.Normal _ a' calls =>
      memory_arena.used_ a ≠ []
      ∧ calls = ([] : list (call E))
      ∧ consistent a'
      ∧ memory_arena.size a'
        = memory_arena.Normal (memory_arena.no_used_ a - 1) a'
            ([] : list (call E))
      ∧ memory_arena.capacity a'
        = memory_arena.Normal
            (memory_arena.no_used_ a + memory_arena.no_cached_ a) a'
            ([] : list (call E))
      ∧ memory_arena.capacity a
        = memory_arena.Normal
            (memory_arena.no_used_ a + memory_arena.no_cached_ a) a
            ([] : list (call E))
  | memory_arena.Raised _ _ _ => False
  | memory_arena.Undefined => memory_arena.used_ a = []
  end.
Proof.
  intros Hcons. pose proof (consistent_capacity a Hcons) as Hcap.
  rewrite deallocate_block_unfold.
  destruct (memory_arena.used_ a) as [|block rest] eqn:Hused; [done|].
  destruct Hcons as (Hnu & Hnc & Hlt). unfold owned in Hlt.
  rewrite Hused in Hnu, Hlt. simpl in Hnu, Hlt.
  rewrite !to_size_t_small by lia.
  set (a' := memory_arena.Build _ _ _ _ _).
  assert (Hcons' : consistent a').
  { unfold consistent, owned, a'; simpl. split_and!; lia. }
  split_and!; try done.
  - by rewrite (consistent_size a' Hcons').
  - rewrite (consistent_capacity a' Hcons'). unfold a'; simpl.
    f_equal. lia.
Qed.

(** X6: [shrink_to_fit] in an arena whose counters count its stacks calls
    [deallocate_block] of the allocator once for each cached block, on
    that block, in the order of [cached_] reversed, and leaves in the arena
    the allocator that got these blocks back; the counters still count,
    and [capacity() == size()], both equal to the [size()] from before.
    The [allocate_block] that follows takes no cached block: it calls the
    allocator. *)
Theorem shrink_to_fit_capacity_is_size a :
  consistent a →
  ∃ a',
    memory_arena.shrink_to_fit a
    = memory_arena.Normal tt a'
        (map call_deallocate_block (rev (memory_arena.cached_ a))
          : list (call E))
    ∧ memory_arena.allocator a'
      = release_all (rev (memory_arena.cached_ a)) (memory_arena.allocator a)
    ∧ consistent a'
    ∧ memory_arena.size a'
      = memory_arena.Normal (memory_arena.no_used_ a) a' ([] : list (call E))
    ∧ memory_arena.capacity a'
      = memory_arena.Normal (memory_arena.no_used_ a) a' ([] : list (call E))
    ∧ match memory_arena.allocate_block node_offset a' with
      | memory_arena.Normal _ _ calls' | memory_arena.Raised _ _ calls' =>
          calls'
          = [call_allocate_block
               (allocator_type.allocate_block (memory_arena.allocator a')).1]
      | memory_arena.Undefined => False
      end.
Proof.
  intros Hcons. rewrite shrink_to_fit_calls.
  set (a' := memory_arena.Build _ _ _ _ _).
  assert (Hcons' : consistent a').
  { destruct Hcons as (Hnu & Hnc & Hlt). unfold owned in Hlt.
    unfold consistent, owned, a'; simpl. split_and!; lia. }
  eexists. split_and!; try done.
  - by rewrite (consistent_size a' Hcons').
  - rewrite (consistent_capacity a' Hcons'). unfold a'; simpl.
    by rewrite Z.add_0_r.
  - rewrite allocate_block_unfold, (consistent_asserts a' Hcons').
    destruct Hcons' as (Hnu' & _ & Hlt'). unfold owned in Hlt'.
    unfold a' in *; simpl in *.
    rewrite Z.add_0_l, to_size_t_small, Z.eqb_refl by lia.
    by destruct (allocator_type.allocate_block _) as [[e|block] alloc'].
Qed.

(** X7: [shrink_to_fit] twice is [shrink_to_fit] once, in any arena: the
    second call changes nothing and calls nothing. *)
Theorem shrink_to_fit_idempotent a :
  ∃ a' (calls : list (call E)),
    memory_arena.shrink_to_fit a = memory_arena.Normal tt a' calls
    ∧ memory_arena.shrink_to_fit a' = memory_arena.Normal tt a' [].
Proof.
  rewrite shrink_to_fit_calls. eexists _, _. split; [done|].
  by rewrite shrink_to_fit_calls.
Qed.

(** X8: when there is a cached block, [allocate_block] followed at once by
    [deallocate_block] gives the arena back as it was: the block taken from
    [cached_] is on top of [cached_] again, the counters are what they
    were, and the allocator has not been called. *)
Theorem allocate_then_deallocate_restores a block rest :
  consistent a →
  memory_arena.cached_ a = block :: rest →
  ∃ a1,
    memory_arena.allocate_block node_offset a
    = memory_arena.Normal (detail.usable node_offset block) a1
        ([] : list (call E))
    ∧ memory_arena.used_ a1 = block :: memory_arena.used_ a
    ∧ memory_arena.deallocate_block a1
      = memory_arena.Normal tt a ([] : list (call E)).
Proof.
  intros Hcons Hcached.
  rewrite allocate_block_unfold, (consistent_asserts a Hcons).
  destruct a as [alloc used cached nu nc].
  unfold consistent, owned in *; simpl in *.
  destruct Hcons as (-> & -> & Hlt). subst cached. simpl in *.
  rewrite (to_size_t_small (_ + _)) by lia.
  replace (_ =? _) with false by (symmetry; apply Z.eqb_neq; lia).
  eexists. split_and!; try done.
  rewrite deallocate_block_unfold; simpl.
  rewrite !to_size_t_small by (rewrite ?to_size_t_small; lia).
  do 2 f_equal; lia.
Qed.

(** X12: swapping two arenas twice gives both back as they were, and
    swapping an arena with itself changes nothing. *)
Theorem swap_involutive a b :
  memory_arena.swap (memory_arena.swap a b).1 (memory_arena.swap a b).2
  = (a, b)
  ∧ memory_arena.swap a a = (a, a).
Proof. by destruct a, b. Qed.

(** X13: [next_block_size()] and [get_allocator()] answer from the
    allocator base, which neither [deallocate_block] nor [swap] touches:
    after [deallocate_block] they answer as before, and after [swap(a, b)]
    the arena [a] still reports the block size of its own allocator, not
    that of the allocator whose blocks it now holds. *)
Theorem next_block_size_follows_allocator a b :
  memory_arena.next_block_size (memory_arena.swap a b).1
  = memory_arena.Normal
      (allocator_type.next_block_size (memory_arena.allocator a))
      (memory_arena.swap a b).1 ([] : list (call E))
  ∧ match (memory_arena.deallocate_block a
           : memory_arena.outcome A E unit) with
    | memory_arena.Normal _ a' _ =>
        memory_arena.next_block_size a'
        = memory_arena.Normal
            (allocator_type.next_block_size (memory_arena.allocator a))
            a' ([] : list (call E))
        ∧ memory_arena.get_allocator a'
          = memory_arena.Normal (memory_arena.allocator a) a'
              ([] : list (call E))
    | memory_arena.Raised _ _ _ => False
    | memory_arena.Undefined => memory_arena.used_ a = []
    end.
Proof.
  split; [done|]. rewrite deallocate_block_unfold.
  by destruct (memory_arena.used_ a).
Qed.

(** X14: a newly constructed arena has [capacity()] and [size()] 0; its
    destructor and [shrink_to_fit] call nothing, [deallocate_block] has no
    defined behaviour on it, and its first [allocate_block] calls the
    allocator it was constructed with. *)
Theorem construct_new_arena (alloc : A) :
  memory_arena.capacity (memory_arena.construct alloc)
  = memory_arena.Normal 0 (memory_arena.construct alloc) ([] : list (call E))
  ∧ memory_arena.size (memory_arena.construct alloc)
    = memory_arena.Normal 0 (memory_arena.construct alloc)
        ([] : list (call E))
  ∧ memory_arena.destroy (memory_arena.construct alloc)
    = memory_arena.Normal tt (memory_arena.construct alloc)
        ([] : list (call E))
  ∧ memory_arena.shrink_to_fit (memory_arena.construct alloc)
    = memory_arena.Normal tt (memory_arena.construct alloc)
        ([] : list (call E))
  ∧ memory_arena.deallocate_block (memory_arena.construct alloc)
    = (memory_arena.Undefined : memory_arena.outcome A E unit)
  ∧ match memory_arena.allocate_block node_offset
            (memory_arena.construct alloc) with
    | memory_arena.Normal _ _ calls | memory_arena.Raised _ _ calls =>
        calls
        = [call_allocate_block (allocator_type.allocate_block alloc).1]
    | memory_arena.Undefined => False
    end.
Proof.
  split_and!; try done.
  rewrite allocate_block_unfold. simpl.
  by destruct (allocator_type.allocate_block alloc) as [[e|block] alloc'].
Qed.

(** X15: whatever a program does with its arenas (constructions, member
    calls, swaps), an arena that has taken part in no swap holds in its
    stacks exactly the blocks its own allocator has handed out and not got
    back, [cached_] reversed and then [used_] from the top being those
    blocks latest first; none of them was lost, and every block that went
    back to that allocator was the latest one out. *)
Theorem unswapped_arena_holds_its_blocks
  (acts : list action) (w : world) i a (own : list (call E)) :
  exec_all node_offset acts initial_world = Some w →
  never_swapped i acts = true →
  arenas w !! i = Some (a, own) →
  outstanding own
  = Some (rev (memory_arena.cached_ a) ++ memory_arena.used_ a)
  ∧ Z.of_nat (owned a)
    = Z.of_nat (obtained own) - Z.of_nat (returned own).
Proof.
  intros Hexec Hnever Hi.
  assert (Hown : own_ok (a, own)).
  { eapply (exec_all_own_ok node_offset i acts initial_world w
              initial_world_ok Hnever Hexec); [|exact Hi].
    intros sl Hsl. simpl in Hsl. by rewrite lookup_nil in Hsl. }
  split; [exact Hown|].
  pose proof (own_ok_count a own Hown) as Hcount.
  unfold blocks_out in Hcount. lia.
Qed.




End more_members.

(** ** The further properties at work on the examples *)

Lemma memory_block_range_reversed_witness :
  size (memory_block_range 100 60) = size_t_modulus - 40.
Proof.
  destruct (memory_block_range_reversed 100 60) as (_ & Hsize & _);
    [by vm_compute..|].
  exact Hsize.
Defined.

Lemma memory_block_range_round_trip_witness :
  memory_block_range 65536 (65536 + 4096)
  = {| memory := 65536; size := 4096 |}.
Proof.
  destruct (memory_block_range_round_trip {| memory := 65536; size := 4096 |})
    as [Hrange _]; [by vm_compute|].
  exact Hrange.
Defined.

Lemma allocate_block_keeps_consistent_witness :
  match memory_arena.allocate_block example_offset example_arena with
  | memory_arena.Normal _ a' calls =>
      consistent a'
      ∧ memory_arena.no_used_ a' = memory_arena.no_used_ example_arena + 1
      ∧ owned a' = (owned example_arena + length calls)%nat
  | memory_arena.Raised _ a' calls =>
      consistent a'
      ∧ memory_arena.no_used_ a' = memory_arena.no_used_ example_arena
      ∧ owned a' = owned example_arena
  | memory_arena.Undefined => False
  end.
Proof.
  apply (allocate_block_keeps_consistent example_offset example_arena).
  - exact example_arena_consistent.
  - reflexivity.
Defined.

Lemma deallocate_block_keeps_capacity_witness :
  ∃ a',
    memory_arena.deallocate_block example_arena
    = memory_arena.Normal tt a' ([] : list (call out_of_memory))
    ∧ memory_arena.capacity a'
      = memory_arena.Normal 3 a' ([] : list (call out_of_memory))
    ∧ memory_arena.size a'
      = memory_arena.Normal 0 a' ([] : list (call out_of_memory)).
Proof.
  pose proof (deallocate_block_keeps_capacity (E := out_of_memory)
                example_arena example_arena_consistent) as Hdealloc.
  destruct (memory_arena.deallocate_block example_arena)
    as [[] a' calls| |] eqn:Hrun; [|done|discriminate].
  destruct Hdealloc as (_ & -> & _ & Hsize & Hcap & _).
  exists a'. split_and!; [reflexivity | exact Hcap | exact Hsize].
Defined.

Lemma shrink_to_fit_capacity_is_size_witness :
  ∃ a',
    memory_arena.shrink_to_fit example_arena
    = memory_arena.Normal tt a'
        [call_deallocate_block {| memory := 73728; size := 4096 |};
         call_deallocate_block {| memory := 69632; size := 4096 |}]
    ∧ memory_arena.allocator a' = fixed_4096 69632 3
    ∧ memory_arena.capacity a'
      = memory_arena.Normal 1 a' ([] : list (call out_of_memory)).
Proof.
  destruct (shrink_to_fit_capacity_is_size example_offset example_arena
              example_arena_consistent)
    as (a' & Hshrink & Halloc & _ & _ & Hcap & _).
  exists a'. split_and!; [exact Hshrink | exact Halloc | exact Hcap].
Defined.

Lemma allocate_then_deallocate_restores_witness :
  ∃ a1,
    memory_arena.allocate_block example_offset example_arena
    = memory_arena.Normal {| memory := 69648; size := 4080 |} a1
        ([] : list (call out_of_memory))
    ∧ memory_arena.deallocate_block a1
      = memory_arena.Normal tt example_arena
          ([] : list (call out_of_memory)).
Proof.
  destruct (allocate_then_deallocate_restores example_offset example_arena
              {| memory := 69632; size := 4096 |}
              [{| memory := 73728; size := 4096 |}]
              example_arena_consistent eq_refl)
    as (a1 & Halloc & _ & Hdealloc).
  exists a1. split; [exact Halloc | exact Hdealloc].
Defined.

Lemma unswapped_arena_holds_its_blocks_witness :
  outstanding example_unswapped_calls
  = Some [{| memory := 2101248; size := 4096 |};
          {| memory := 2097152; size := 4096 |}].
Proof.
  destruct (unswapped_arena_holds_its_blocks example_offset example_actions
              example_world 2 example_unswapped example_unswapped_calls)
    as [Hout _]; [vm_compute; reflexivity | reflexivity | reflexivity |].
  exact Hout.
Defined.
